(** * Request-scoped memory manager: size classes, free lists, accounting

    A shallow embedding of [hphp/runtime/base/memory-manager-inl.h].

    Machine integers are mathematical integers with the wrap-around of the
    C++ type written out: [size_t] and [uint64_t] wrap modulo [2^64],
    [ssize_t] and [int64_t] are the two's complement reading of such a word.
    Pointers are addresses of type [Z]; [nullptr] is address [0]. *)

From Stdlib Require Import ZArith Lia List Bool.
From stdpp Require Import base option list gmap.

Local Open Scope Z_scope.

(** ** 64-bit words *)

Module Word64.

Definition modulus : Z := 2 ^ 64.
Definition half_modulus : Z := 2 ^ 63.

(** Value of an expression of type [size_t]. *)
Definition to_size_t (z : Z) : Z := z mod modulus.

(** Value of an expression of type [ssize_t] or [int64_t]. *)
Definition to_ssize_t (z : Z) : Z :=
  (z + half_modulus) mod modulus - half_modulus.

(** [fls64] of [hphp/util/bitops.h]: the position of the highest set bit
    of a non-zero 64-bit word.  The header is not part of the sources; the
    instruction it wraps leaves the result undefined on [0], where this
    model answers [0]. *)
Definition fls64 (input : Z) : Z := Z.log2 input.

End Word64.

Import Word64.

Arguments to_size_t : simpl never.
Arguments to_ssize_t : simpl never.

(** ** Size-class engine *)

Section SizeClassEngine.

(** The constants of [memory-manager.h], which is not part of the
    sources, are parameters of the engine. *)
Variable kLgSizeClassesPerDoubling : Z.
Variable kLgSmallSizeQuantum : Z.
Variable kNumSizeClasses : Z.
Variable kMaxSmallSizeLookup : Z.

(** Modelled from the spec: the byte size of a size class, which
    [memory-manager.h] tabulates, as the comment in [computeSize2Index]
    and the data model describe it.  The first
    [1 << kLgSizeClassesPerDoubling] classes are denormal, of size
    [(class + 1) << kLgSmallSizeQuantum]; a normal class has size
    [(1 << kLgSizeClassesPerDoubling + mantissa) << (exp + kLgSmallSizeQuantum)]
    where [mantissa - 1] is held in the low [kLgSizeClassesPerDoubling]
    bits of the class index and [exp + 1] in the bits above them. *)
Definition classBytes (index : Z) : Z :=
  if index <? Z.shiftl 1 kLgSizeClassesPerDoubling then
    Z.shiftl (index + 1) kLgSmallSizeQuantum
  else
    let mantissa :=
      Z.land index (Z.shiftl 1 kLgSizeClassesPerDoubling - 1) + 1 in
    let exp := Z.shiftr index kLgSizeClassesPerDoubling - 1 in
    Z.shiftl (Z.shiftl 1 kLgSizeClassesPerDoubling + mantissa)
             (exp + kLgSmallSizeQuantum).

(** Modelled from the spec: the table [kSizeIndex2Size] of
    [memory-manager.h], one entry per class index in
    [[0, kNumSizeClasses)]. *)
Definition kSizeIndex2Size : list Z :=
  classBytes <$> seqZ 0 kNumSizeClasses.

(** [sizeIndex2Size]: a read of the table.  An index past the end of the
    table is outside the contract of the source; the model reads [0]. *)
Definition sizeIndex2Size (index : Z) : Z :=
  default 0 (kSizeIndex2Size !! Z.to_nat index).

(** Modelled from the spec: the largest class size, the upper end of the
    domain of the engine. *)
Definition kMaxSizeClass : Z := sizeIndex2Size (kNumSizeClasses - 1).

(** Modelled from the spec: the table [kSmallSize2Index] of
    [memory-manager.h].  Every class up to [kMaxSmallSizeLookup]
    contributes its index once per quantum it spans beyond the class
    before it, so that slot [(size - 1) >> kLgSmallSizeQuantum] holds the
    class of [size]. *)
Definition lookupSlots (index : Z) : list Z :=
  replicate
    (Z.to_nat (Z.shiftr (classBytes index - classBytes (index - 1))
                        kLgSmallSizeQuantum))
    index.

Definition kSmallSize2Index : list Z :=
  flat_map lookupSlots
    (List.filter (fun index => classBytes index <=? kMaxSmallSizeLookup)
                 (seqZ 0 kNumSizeClasses)).

Definition computeSize2Index (size : Z) : Z :=
  let size := to_size_t (size - 1) in
  let nBits := fls64 size in
  if nBits <? to_size_t (kLgSizeClassesPerDoubling + kLgSmallSizeQuantum)
  then
    (* denormal sizes *)
    Z.shiftr size kLgSmallSizeQuantum
  else
    let exp :=
      to_size_t
        (nBits - to_size_t (kLgSizeClassesPerDoubling + kLgSmallSizeQuantum))
    in
    let rawMantissa :=
      Z.shiftr size (to_size_t (nBits - kLgSizeClassesPerDoubling)) in
    let index :=
      to_size_t
        (to_size_t (Z.shiftl exp kLgSizeClassesPerDoubling) + rawMantissa)
    in
    index.

Definition lookupSmallSize2Index (size : Z) : Z :=
  let index :=
    default 0
      (kSmallSize2Index
         !! Z.to_nat (Z.shiftr (to_size_t (size - 1)) kLgSmallSizeQuantum))
  in
  index.

Definition size2Index (size : Z) : Z :=
  if size <=? kMaxSmallSizeLookup then lookupSmallSize2Index size
  else computeSize2Index size.

Definition sizeClass (size : Z) : Z :=
  let size := to_size_t (size - 1) in
  (* Round up to the nearest kLgSizeClassesPerDoubling + 1 significant
     bits, or to the nearest kLgSmallSizeQuantum, whichever is greater. *)
  let nInsignificantBits :=
    to_ssize_t (to_size_t (fls64 size - kLgSizeClassesPerDoubling)) in
  let roundTo :=
    to_size_t
      (if nInsignificantBits <? to_ssize_t kLgSmallSizeQuantum
       then kLgSmallSizeQuantum else nInsignificantBits) in
  let ret :=
    to_size_t (Z.shiftl (to_size_t (Z.shiftr size roundTo + 1)) roundTo) in
  ret.

End SizeClassEngine.

(** ** Free lists *)

Module FreeNode.

(** [FreeNode::UninitFrom]: only the [next] link of the node at [addr]
    is stored; no header is written.  [mem] maps the address of a free
    node to its [next] link. *)
Definition UninitFrom (addr next : Z) (mem : gmap Z Z) : Z * gmap Z Z :=
  let node := addr in
  (node, <[node := next]> mem).

(** A read of [node->next].  The link of a node that was never stored
    is outside the contract of the source; the model reads [nullptr]. *)
Definition next (node : Z) (mem : gmap Z Z) : Z :=
  default 0 (mem !! node).

End FreeNode.

Module FreeList.

Record t := mk { head : Z }.

Definition likelyPop (fl : t) (mem : gmap Z Z) : Z * t :=
  let ret := head fl in
  if negb (ret =? 0) then
    (* head already prefetched, this load should be fast *)
    let next := FreeNode.next ret mem in
    (ret, mk next)
  else (ret, fl).

Definition unlikelyPop (fl : t) (mem : gmap Z Z) : Z * t :=
  let ret := head fl in
  (ret, if negb (ret =? 0) then mk (FreeNode.next ret mem) else fl).

Definition push (val : Z) (fl : t) (mem : gmap Z Z) : t * gmap Z Z :=
  let '(node, mem) := FreeNode.UninitFrom val (head fl) mem in
  (mk node, mem).

End FreeList.

(** The single operation the two pops are variants of: return the head
    and advance it to the link stored in the popped node. *)
Definition pop_spec (pop : FreeList.t -> gmap Z Z -> Z * FreeList.t) : Prop :=
  forall fl mem,
    pop fl mem
    = (FreeList.head fl,
       if FreeList.head fl =? 0 then fl
       else FreeList.mk (FreeNode.next (FreeList.head fl) mem)).

(** ** The memory manager *)

(** Modelled from the spec: [MemoryUsageStats], declared in
    [memory-usage-stats.h], which is not part of the sources: a value
    record of the current byte usage, the cumulative allocated and
    deallocated counters last reconciled with the external allocator, the
    capacity, the peak usage and the peaks of the measurement window.  The
    source names [mmUsage], [peakIntervalUsage] and [peakIntervalCap]. *)
Record MemoryUsageStats := mkStats {
  mmUsage : Z;
  totalAlloc : Z;
  totalDealloc : Z;
  heapCap : Z;
  peakUsage : Z;
  peakIntervalUsage : Z;
  peakIntervalCap : Z
}.

Definition set_mmUsage (v : Z) (s : MemoryUsageStats) : MemoryUsageStats :=
  mkStats v (totalAlloc s) (totalDealloc s) (heapCap s) (peakUsage s)
          (peakIntervalUsage s) (peakIntervalCap s).

Definition set_peakIntervalUsage (v : Z) (s : MemoryUsageStats)
  : MemoryUsageStats :=
  mkStats (mmUsage s) (totalAlloc s) (totalDealloc s) (heapCap s)
          (peakUsage s) v (peakIntervalCap s).

Definition set_peakIntervalCap (v : Z) (s : MemoryUsageStats)
  : MemoryUsageStats :=
  mkStats (mmUsage s) (totalAlloc s) (totalDealloc s) (heapCap s)
          (peakUsage s) (peakIntervalUsage s) v.

(** The members of [MemoryManager] the inline functions touch.  [m_memory]
    is the request heap as the free lists see it: the [next] link stored
    at each free node.  [m_bigs] is the collection of individually tracked
    big blocks of the backing heap, with the size each was allocated at;
    [m_front] is the front of the memory not yet handed out;
    [m_allocated] and [m_deallocated] are the counters of the external
    allocator that the members of these names point to. *)
Record MemoryManager := mkMM {
  m_freelists : list FreeList.t;
  m_memory : gmap Z Z;
  m_stats : MemoryUsageStats;
  m_statsIntervalActive : bool;
  m_couldOOM : bool;
  m_usageLimit : Z;
  m_bypassSlabAlloc : bool;
  currentSmallAllocs : list Z;
  m_exiting : bool;
  m_bigs : gmap Z Z;
  m_front : Z;
  m_allocated : Z;
  m_deallocated : Z
}.

Definition set_m_freelists (v : list FreeList.t) (mm : MemoryManager) :=
  mkMM v (m_memory mm) (m_stats mm) (m_statsIntervalActive mm)
       (m_couldOOM mm) (m_usageLimit mm) (m_bypassSlabAlloc mm)
       (currentSmallAllocs mm) (m_exiting mm) (m_bigs mm) (m_front mm)
       (m_allocated mm) (m_deallocated mm).

Definition set_m_memory (v : gmap Z Z) (mm : MemoryManager) :=
  mkMM (m_freelists mm) v (m_stats mm) (m_statsIntervalActive mm)
       (m_couldOOM mm) (m_usageLimit mm) (m_bypassSlabAlloc mm)
       (currentSmallAllocs mm) (m_exiting mm) (m_bigs mm) (m_front mm)
       (m_allocated mm) (m_deallocated mm).

Definition set_m_stats (v : MemoryUsageStats) (mm : MemoryManager) :=
  mkMM (m_freelists mm) (m_memory mm) v (m_statsIntervalActive mm)
       (m_couldOOM mm) (m_usageLimit mm) (m_bypassSlabAlloc mm)
       (currentSmallAllocs mm) (m_exiting mm) (m_bigs mm) (m_front mm)
       (m_allocated mm) (m_deallocated mm).

Definition set_m_statsIntervalActive (v : bool) (mm : MemoryManager) :=
  mkMM (m_freelists mm) (m_memory mm) (m_stats mm) v
       (m_couldOOM mm) (m_usageLimit mm) (m_bypassSlabAlloc mm)
       (currentSmallAllocs mm) (m_exiting mm) (m_bigs mm) (m_front mm)
       (m_allocated mm) (m_deallocated mm).

Definition set_m_couldOOM (v : bool) (mm : MemoryManager) :=
  mkMM (m_freelists mm) (m_memory mm) (m_stats mm) (m_statsIntervalActive mm)
       v (m_usageLimit mm) (m_bypassSlabAlloc mm)
       (currentSmallAllocs mm) (m_exiting mm) (m_bigs mm) (m_front mm)
       (m_allocated mm) (m_deallocated mm).

Definition set_currentSmallAllocs (v : list Z) (mm : MemoryManager) :=
  mkMM (m_freelists mm) (m_memory mm) (m_stats mm) (m_statsIntervalActive mm)
       (m_couldOOM mm) (m_usageLimit mm) (m_bypassSlabAlloc mm)
       v (m_exiting mm) (m_bigs mm) (m_front mm)
       (m_allocated mm) (m_deallocated mm).

Definition set_m_exiting (v : bool) (mm : MemoryManager) :=
  mkMM (m_freelists mm) (m_memory mm) (m_stats mm) (m_statsIntervalActive mm)
       (m_couldOOM mm) (m_usageLimit mm) (m_bypassSlabAlloc mm)
       (currentSmallAllocs mm) v (m_bigs mm) (m_front mm)
       (m_allocated mm) (m_deallocated mm).

Definition set_m_bigs (v : gmap Z Z) (mm : MemoryManager) :=
  mkMM (m_freelists mm) (m_memory mm) (m_stats mm) (m_statsIntervalActive mm)
       (m_couldOOM mm) (m_usageLimit mm) (m_bypassSlabAlloc mm)
       (currentSmallAllocs mm) (m_exiting mm) v (m_front mm)
       (m_allocated mm) (m_deallocated mm).

Definition set_m_front (v : Z) (mm : MemoryManager) :=
  mkMM (m_freelists mm) (m_memory mm) (m_stats mm) (m_statsIntervalActive mm)
       (m_couldOOM mm) (m_usageLimit mm) (m_bypassSlabAlloc mm)
       (currentSmallAllocs mm) (m_exiting mm) (m_bigs mm) v
       (m_allocated mm) (m_deallocated mm).

(** [m_freelists[index]]; an index past the array is outside the contract
    of the source, where the model reads an empty list and writes
    nothing. *)
Definition freelist_at (mm : MemoryManager) (index : Z) : FreeList.t :=
  default (FreeList.mk 0) (m_freelists mm !! Z.to_nat index).

(** Every free list of the manager is empty. *)
Definition freelists_empty (mm : MemoryManager) : bool :=
  forallb (fun fl => FreeList.head fl =? 0) (m_freelists mm).

(** ** Scoped suppression of the out-of-memory check *)

Module SuppressOOM.

(** The reference [m_mm] of the guard is the manager threaded through
    its constructor and destructor. *)
Record t := mk { m_savedCouldOOM : bool }.

(** [SuppressOOM(MemoryManager& mm)] *)
Definition ctor (mm : MemoryManager) : t * MemoryManager :=
  (mk (m_couldOOM mm), set_m_couldOOM false mm).

(** [~SuppressOOM()] *)
Definition dtor (guard : t) (mm : MemoryManager) : MemoryManager :=
  set_m_couldOOM (m_savedCouldOOM guard) mm.

(** A block that declares a guard and runs [body] in its scope. *)
Definition scope (body : MemoryManager -> MemoryManager)
           (mm : MemoryManager) : MemoryManager :=
  let '(guard, mm) := ctor mm in
  dtor guard (body mm).

End SuppressOOM.

(** ** Allocation, accounting and budget *)

Section Facade.

Variable kLgSizeClassesPerDoubling : Z.
Variable kLgSmallSizeQuantum : Z.
Variable kNumSizeClasses : Z.
Variable kMaxSmallSizeLookup : Z.

(** [debug] of [hphp/util/compilation-flags.h]. *)
Variable debug : bool.

(** The members of [MemoryManager] and [MemoryUsageStats] that are
    defined outside the sources.  Each is a parameter of its declared
    shape: a member function of the manager may read and write the
    manager, a [const] method of the statistics only reads them. *)
Variable requestEagerGC : MemoryManager -> MemoryManager.
Variable mallocSmallSizeSlow :
  MemoryManager -> Z -> Z -> Z * MemoryManager.
Variable freeBigSize : MemoryManager -> Z -> MemoryManager.
Variable usage : MemoryUsageStats -> Z.
Variable capacity : MemoryUsageStats -> Z.
Variable refreshStatsImpl :
  MemoryManager -> MemoryUsageStats -> MemoryManager * MemoryUsageStats.
Variable refreshStatsHelperExceeded : MemoryManager -> MemoryManager.

Definition mallocSmallIndex (mm : MemoryManager) (index : Z)
  : Z * MemoryManager :=
  let mm := if debug then requestEagerGC mm else mm in
  let bytes :=
    sizeIndex2Size kLgSizeClassesPerDoubling kLgSmallSizeQuantum
                   kNumSizeClasses index in
  (* m_stats.mmUsage += bytes: the sum is taken on 64-bit words *)
  let mm :=
    set_m_stats
      (set_mmUsage (to_ssize_t (mmUsage (m_stats mm) + bytes)) (m_stats mm))
      mm in
  let '(p, fl) := FreeList.likelyPop (freelist_at mm index) (m_memory mm) in
  let mm :=
    set_m_freelists (<[Z.to_nat index := fl]> (m_freelists mm)) mm in
  if p =? 0 then mallocSmallSizeSlow mm bytes index
  else (p, mm).

Definition mallocSmallSize (mm : MemoryManager) (bytes : Z)
  : Z * MemoryManager :=
  mallocSmallIndex mm
    (size2Index kLgSizeClassesPerDoubling kLgSmallSizeQuantum
                kNumSizeClasses kMaxSmallSizeLookup bytes).

(** The element type of [currentSmallAllocs] is declared outside the
    sources; the decrement is taken on the integers. *)
Definition freeSmallIndex (mm : MemoryManager) (ptr index : Z)
  : MemoryManager :=
  if m_bypassSlabAlloc mm then
    let mm :=
      set_currentSmallAllocs
        (alter (fun count => count - 1) (Z.to_nat index)
               (currentSmallAllocs mm))
        mm in
    freeBigSize mm ptr
  else
    let bytes :=
      sizeIndex2Size kLgSizeClassesPerDoubling kLgSmallSizeQuantum
                     kNumSizeClasses index in
    let '(fl, mem) :=
      FreeList.push ptr (freelist_at mm index) (m_memory mm) in
    let mm :=
      set_m_memory mem
        (set_m_freelists (<[Z.to_nat index := fl]> (m_freelists mm)) mm) in
    set_m_stats
      (set_mmUsage (to_ssize_t (mmUsage (m_stats mm) - bytes)) (m_stats mm))
      mm.

Definition freeSmallSize (mm : MemoryManager) (ptr bytes : Z)
  : MemoryManager :=
  freeSmallIndex mm ptr
    (size2Index kLgSizeClassesPerDoubling kLgSmallSizeQuantum
                kNumSizeClasses kMaxSmallSizeLookup bytes).


Definition getStatsCopy (mm : MemoryManager)
  : MemoryManager * MemoryUsageStats :=
  let copy := m_stats mm in
  refreshStatsImpl mm copy.

Definition startStatsInterval (mm : MemoryManager)
  : bool * MemoryManager :=
  let ret := negb (m_statsIntervalActive mm) in
  (* Fetch current stats without changing m_stats or triggering OOM. *)
  let '(mm, stats) := getStatsCopy mm in
  let mm :=
    set_m_stats (set_peakIntervalUsage (Z.max 0 (usage stats)) (m_stats mm))
                mm in
  let mm :=
    set_m_stats (set_peakIntervalCap (capacity (m_stats mm)) (m_stats mm))
                mm in
  let mm := set_m_statsIntervalActive true mm in
  (ret, mm).

Definition stopStatsInterval (mm : MemoryManager) : bool * MemoryManager :=
  let ret := m_statsIntervalActive mm in
  let mm := set_m_statsIntervalActive false mm in
  let mm := set_m_stats (set_peakIntervalUsage 0 (m_stats mm)) mm in
  let mm := set_m_stats (set_peakIntervalCap 0 (m_stats mm)) mm in
  (ret, mm).

Definition getMemoryLimit (mm : MemoryManager) : Z := m_usageLimit mm.

Definition preAllocOOM (mm : MemoryManager) (size : Z)
  : bool * MemoryManager :=
  if m_couldOOM mm then
    let '(mm, stats) := getStatsCopy mm in
    (* stats.usage() + size: the sum is taken on 64-bit words *)
    if to_ssize_t (usage stats + size) >? m_usageLimit mm then
      (true, refreshStatsHelperExceeded mm)
    else (false, mm)
  else (false, mm).

Definition forceOOM (mm : MemoryManager) : MemoryManager :=
  if m_couldOOM mm then refreshStatsHelperExceeded mm else mm.

End Facade.

(** ** The manager of the calling thread *)

(** A member access through a pointer either yields the object or is a
    null dereference. *)
Inductive access (A : Type) : Type :=
  | Reached (a : A)
  | NullDereference.
Arguments Reached {A} a.
Arguments NullDereference {A}.

#[export] Instance access_ret : MRet access := fun A a => Reached a.

#[export] Instance access_bind : MBind access := fun A B f x =>
  match x with
  | Reached a => f a
  | NullDereference => NullDereference
  end.

(** [tl_heap] is the thread-local pointer to the manager, [None] when no
    manager is active for the thread; [tl_sweeping] is thread-local. *)
Record ThreadLocals := mkTL {
  tl_heap : option MemoryManager;
  tl_sweeping : bool
}.

(** [tl_heap->] *)
Definition deref (p : option MemoryManager) : access MemoryManager :=
  match p with
  | Some mm => Reached mm
  | None => NullDereference
  end.

(** [tl_heap] read as a condition. *)
Definition nonnull (p : option MemoryManager) : bool :=
  match p with Some _ => true | None => false end.

Definition sweeping (tl : ThreadLocals) : access bool :=
  if nonnull (tl_heap tl) then mret (tl_sweeping tl) else mret false.

Definition exiting (tl : ThreadLocals) : access bool :=
  if nonnull (tl_heap tl) then
    mm ← deref (tl_heap tl); mret (m_exiting mm)
  else mret false.

Definition setExiting (tl : ThreadLocals) : access ThreadLocals :=
  if nonnull (tl_heap tl) then
    mm ← deref (tl_heap tl);
    mret (mkTL (Some (set_m_exiting true mm)) (tl_sweeping tl))
  else mret tl.

(** ** The collaborators, from the design *)

Module Design.

(** Modelled from the spec: [requestEagerGC], defined in
    [memory-manager.cpp]: in diagnostic builds "each small allocation
    may proactively trigger an eager collection cycle".  The collector
    is a collaborator outside the manager; the request leaves the
    manager as it is. *)
Definition requestEagerGC (mm : MemoryManager) : MemoryManager := mm.

(** Modelled from the spec: [mallocSmallSizeSlow], defined in
    [memory-manager.cpp]: "a slow path that carves a new block out of
    the backing heap (growing it if necessary) sized to the class".
    When slab recycling is bypassed the block is one of the
    individually tracked blocks of the heap, which is what the
    large-object free path it is later routed to releases. *)
Definition mallocSmallSizeSlow (mm : MemoryManager) (nbytes index : Z)
  : Z * MemoryManager :=
  let p := m_front mm in
  let mm := set_m_front (m_front mm + nbytes) mm in
  if m_bypassSlabAlloc mm then
    (p, set_m_bigs (<[p := nbytes]> (m_bigs mm)) mm)
  else (p, mm).

(** Modelled from the spec: [freeBigSize], defined in
    [memory-manager.cpp], the large-object free path: the usage counter
    is updated "on every alloc/free (increment on alloc by
    class/requested size, decrement on free by the same size used at
    alloc time)", and the block, "tracked individually", goes back to
    the external allocator.  A pointer the heap does not track is
    outside the contract; the model leaves the manager as it is. *)
Definition freeBigSize (mm : MemoryManager) (vp : Z) : MemoryManager :=
  match m_bigs mm !! vp with
  | Some bytes =>
      set_m_bigs (delete vp (m_bigs mm))
        (set_m_stats
           (set_mmUsage (to_ssize_t (mmUsage (m_stats mm) - bytes))
                        (m_stats mm))
           mm)
  | None => mm
  end.

(** Modelled from the spec: [MemoryUsageStats::usage], the "current byte
    usage" of the record. *)
Definition usage (stats : MemoryUsageStats) : Z := mmUsage stats.

(** Modelled from the spec: [MemoryUsageStats::capacity]. *)
Definition capacity (stats : MemoryUsageStats) : Z := heapCap stats.

(** Modelled from the spec: [refreshStatsImpl], defined in
    [memory-manager.cpp]: it "reconciles the running usage counter with
    ground-truth allocation/deallocation totals from the external
    allocator, when such totals are available; otherwise a no-op".
    [statsEnabled] says whether the totals are available; the counter is
    a 64-bit word. *)
Definition refreshStatsImpl (statsEnabled : bool) (mm : MemoryManager)
           (stats : MemoryUsageStats) : MemoryManager * MemoryUsageStats :=
  if statsEnabled then
    let delta :=
      (m_allocated mm - totalAlloc stats)
      - (m_deallocated mm - totalDealloc stats) in
    (mm, mkStats (to_ssize_t (mmUsage stats + delta)) (m_allocated mm)
                 (m_deallocated mm) (heapCap stats) (peakUsage stats)
                 (peakIntervalUsage stats) (peakIntervalCap stats))
  else (mm, stats).

(** Modelled from the spec: [refreshStatsHelperExceeded], defined in
    [memory-manager.cpp]: "an external collaborator hook (e.g., raises
    a resource-exhaustion condition to the interpreter)"; the manager's
    part "ends at detecting and signaling the breach". *)
Definition refreshStatsHelperExceeded (mm : MemoryManager)
  : MemoryManager := mm.

End Design.

(** ** A sample configuration *)

(** A consistent choice of the constants (sixteen-byte quantum, four
    classes per doubling, table lookup up to 4096 bytes, as many classes
    as fit in a 64-bit word) and a few states of a manager with a budget
    of 1000 bytes of which 900 are in use. *)
Module Sample.

Definition kLgSizeClassesPerDoubling : Z := 2.
Definition kLgSmallSizeQuantum : Z := 4.
Definition kNumSizeClasses : Z := 232.
Definition kMaxSmallSizeLookup : Z := 4096.

Definition stats : MemoryUsageStats := mkStats 900 0 0 4096 900 0 0.

(** Slab recycling in use, every free list empty, no interval active. *)
Definition fresh : MemoryManager :=
  mkMM (replicate 8 (FreeList.mk 0)) ∅ stats false true 1000 false
       (replicate 8 0) false ∅ 4096 0 0.

(** The same with slab recycling bypassed. *)
Definition bypassed : MemoryManager :=
  mkMM (replicate 8 (FreeList.mk 0)) ∅ stats false true 1000 true
       (replicate 8 1) false ∅ 4096 0 0.

(** The same as [fresh] after the external allocator has handed out 200
    bytes that the statistics have not been reconciled with. *)
Definition drifted : MemoryManager :=
  mkMM (replicate 8 (FreeList.mk 0)) ∅ stats false true 1000 false
       (replicate 8 0) false ∅ 4096 200 0.

(** The small-object path at the sample constants, with the collaborators
    of the design. *)
Definition malloc (mm : MemoryManager) (bytes : Z) : Z * MemoryManager :=
  mallocSmallSize kLgSizeClassesPerDoubling kLgSmallSizeQuantum
    kNumSizeClasses kMaxSmallSizeLookup false Design.requestEagerGC
    Design.mallocSmallSizeSlow mm bytes.

Definition free (mm : MemoryManager) (ptr bytes : Z) : MemoryManager :=
  freeSmallSize kLgSizeClassesPerDoubling kLgSmallSizeQuantum
    kNumSizeClasses kMaxSmallSizeLookup Design.freeBigSize mm ptr bytes.

(** [count] allocations of [bytes] bytes in a row, and the free of a list
    of blocks in the order of the list. *)
Fixpoint mallocMany (count : nat) (bytes : Z) (mm : MemoryManager)
  : list Z * MemoryManager :=
  match count with
  | O => ([], mm)
  | S count =>
      let '(p, mm) := malloc mm bytes in
      let '(ps, mm) := mallocMany count bytes mm in
      (p :: ps, mm)
  end.

Fixpoint freeMany (ptrs : list Z) (bytes : Z) (mm : MemoryManager)
  : MemoryManager :=
  match ptrs with
  | [] => mm
  | p :: ptrs => freeMany ptrs bytes (free mm p bytes)
  end.

End Sample.

(** ** Consistent constants *)

(** The constants the engine is built with fit together: the shifts are
    shifts of a 64-bit word, the largest class fits in one, and the table
    lookup ends on a class size. *)
Definition consistent (P Q N L : Z) : Prop :=
  0 <= P /\ 0 <= Q /\ P + Q < 64 /\
  kMaxSizeClass P Q N < 2 ^ 64 /\
  L ∈ kSizeIndex2Size P Q N.

(** ** Free lists as stacks *)

(** The blocks a free list holds, read from its head along the stored
    links: [chain mem head blocks]. *)
Fixpoint chain (mem : gmap Z Z) (head : Z) (blocks : list Z) : Prop :=
  match blocks with
  | [] => head = 0
  | block :: blocks =>
      head = block /\ block <> 0 /\
      chain mem (FreeNode.next block mem) blocks
  end.

(** Pushes in a row, first block first, and pops in a row. *)
Fixpoint pushAll (vals : list Z) (fl : FreeList.t) (mem : gmap Z Z)
  : FreeList.t * gmap Z Z :=
  match vals with
  | [] => (fl, mem)
  | val :: vals =>
      let '(fl, mem) := FreeList.push val fl mem in
      pushAll vals fl mem
  end.

Fixpoint popN (pop : FreeList.t -> gmap Z Z -> Z * FreeList.t)
         (count : nat) (fl : FreeList.t) (mem : gmap Z Z)
  : list Z * FreeList.t :=
  match count with
  | O => ([], fl)
  | S count =>
      let '(p, fl) := pop fl mem in
      let '(ps, fl) := popN pop count fl mem in
      (p :: ps, fl)
  end.

(** Every free list of the manager holds the blocks listed for its
    class. *)
Definition freelists_hold (mm : MemoryManager) (held : list (list Z))
  : Prop :=
  Forall2 (fun fl blocks => chain (m_memory mm) (FreeList.head fl) blocks)
          (m_freelists mm) held.

(** ** Dispatch between the small and the large path *)

Section Dispatch.

Variable kLgSizeClassesPerDoubling : Z.
Variable kLgSmallSizeQuantum : Z.
Variable kNumSizeClasses : Z.
Variable kMaxSmallSizeLookup : Z.

(** [kMaxSmallSize] and [kNumSmallSizes] of [memory-manager.h]. *)
Variable kMaxSmallSize : Z.
Variable kNumSmallSizes : Z.

Variable debug : bool.
Variable requestEagerGC : MemoryManager -> MemoryManager.
Variable mallocSmallSizeSlow : MemoryManager -> Z -> Z -> Z * MemoryManager.
Variable freeBigSize : MemoryManager -> Z -> MemoryManager.

(** [mallocBigSize<Unzeroed>], defined outside the sources. *)
Variable mallocBigSize : MemoryManager -> Z -> Z * MemoryManager.

Definition objMalloc (mm : MemoryManager) (size : Z) : Z * MemoryManager :=
  if size <=? kMaxSmallSize then
    mallocSmallSize kLgSizeClassesPerDoubling kLgSmallSizeQuantum
      kNumSizeClasses kMaxSmallSizeLookup debug requestEagerGC
      mallocSmallSizeSlow mm size
  else mallocBigSize mm size.

Definition objFree (mm : MemoryManager) (vp size : Z) : MemoryManager :=
  if size <=? kMaxSmallSize then
    freeSmallSize kLgSizeClassesPerDoubling kLgSmallSizeQuantum
      kNumSizeClasses kMaxSmallSizeLookup freeBigSize mm vp size
  else freeBigSize mm vp.

Definition objMallocIndex (mm : MemoryManager) (index : Z)
  : Z * MemoryManager :=
  if index <? kNumSmallSizes then
    mallocSmallIndex kLgSizeClassesPerDoubling kLgSmallSizeQuantum
      kNumSizeClasses debug requestEagerGC mallocSmallSizeSlow mm index
  else
    mallocBigSize mm
      (sizeIndex2Size kLgSizeClassesPerDoubling kLgSmallSizeQuantum
                      kNumSizeClasses index).

Definition objFreeIndex (mm : MemoryManager) (ptr index : Z)
  : MemoryManager :=
  if index <? kNumSmallSizes then
    freeSmallIndex kLgSizeClassesPerDoubling kLgSmallSizeQuantum
      kNumSizeClasses freeBigSize mm ptr index
  else freeBigSize mm ptr.

End Dispatch.

(** ** Budget checks in a row *)

Inductive budgetCall : Type :=
  | PreAllocOOM (size : Z)
  | ForceOOM.

(** The manager after a sequence of budget checks. *)
Definition budgetCalls
           (usage : MemoryUsageStats -> Z)
           (refreshStatsImpl :
              MemoryManager -> MemoryUsageStats
              -> MemoryManager * MemoryUsageStats)
           (refreshStatsHelperExceeded : MemoryManager -> MemoryManager)
           (calls : list budgetCall) (mm : MemoryManager) : MemoryManager :=
  foldl
    (fun mm call =>
       match call with
       | PreAllocOOM size =>
           (preAllocOOM usage refreshStatsImpl refreshStatsHelperExceeded
                        mm size).2
       | ForceOOM => forceOOM refreshStatsHelperExceeded mm
       end)
    mm calls.

(** ** The heaps *)

Module ContiguousHeap.

Record t := mk { m_base : Z; m_front : Z }.

Definition empty (heap : t) : bool := m_base heap =? m_front heap.

(** [chunk_index]; [ChunkSize] is declared outside the sources.  The
    difference of the pointers divides as a 64-bit word; the source
    asserts [p >= m_base]. *)
Definition chunk_index (ChunkSize : Z) (heap : t) (p : Z) : Z :=
  to_size_t (p - m_base heap) / ChunkSize.

End ContiguousHeap.

(** ** Masking of the external allocator's traffic *)

(** The members [m_resetAllocated] and [m_resetDeallocated] of the
    manager, which only [MaskAlloc] touches, beside the record of the
    other members. *)
Record MaskedManager := mkMasked {
  masked : MemoryManager;
  m_resetAllocated : Z;
  m_resetDeallocated : Z
}.

Module MaskAlloc.

Record t := mk { startAlloc : Z; startDealloc : Z }.

Section Guard.

(** [s_statsEnabled] and [refreshStats] are declared outside the
    sources. *)
Variable s_statsEnabled : bool.
Variable refreshStats : MaskedManager -> MaskedManager.

(** [MaskAlloc(MemoryManager& mm)]: the counters are read by the member
    initialisers, before the body refreshes the statistics. *)
Definition ctor (mm : MaskedManager) : t * MaskedManager :=
  let guard :=
    mk (if s_statsEnabled then m_allocated (masked mm) else 0)
       (if s_statsEnabled then m_deallocated (masked mm) else 0) in
  (* capture all mallocs prior to construction *)
  (guard, refreshStats mm).

(** [~MaskAlloc()]: the sums are sums of 64-bit words. *)
Definition dtor (guard : t) (mm : MaskedManager) : MaskedManager :=
  (* exclude mallocs and frees since construction *)
  if s_statsEnabled then
    mkMasked (masked mm)
      (to_size_t
         (m_resetAllocated mm
          + to_size_t (m_allocated (masked mm) - startAlloc guard)))
      (to_size_t
         (m_resetDeallocated mm
          + to_size_t (m_deallocated (masked mm) - startDealloc guard)))
  else mm.

(** A block that declares a guard and runs [body] in its scope. *)
Definition scope (body : MaskedManager -> MaskedManager)
           (mm : MaskedManager) : MaskedManager :=
  let '(guard, mm) := ctor mm in
  dtor guard (body mm).

End Guard.

End MaskAlloc.

(** * Properties *)

(** ** The model at work *)

Example sample_class_sizes :
  kSizeIndex2Size 2 4 13
  = [16; 32; 48; 64; 80; 96; 112; 128; 160; 192; 224; 256; 320].
Proof. reflexivity. Qed.

Example sample_lookup_table :
  length (kSmallSize2Index 2 4 232 4096) = 256%nat /\
  take 12 (kSmallSize2Index 2 4 232 4096) = [0; 1; 2; 3; 4; 5; 6; 7; 8; 8; 9; 9]
  /\ last (kSmallSize2Index 2 4 232 4096) = Some 27.
Proof. vm_compute. done. Qed.

Example sample_classification :
  (fun s => (size2Index 2 4 232 4096 s, sizeClass 2 4 s))
    <$> [2; 16; 17; 24; 128; 129; 4096; 4097; 5120; 5121]
  = [(0, 16); (0, 16); (1, 32); (1, 32); (7, 128); (8, 160); (27, 4096);
     (28, 5120); (28, 5120); (29, 6144)].
Proof. vm_compute. reflexivity. Qed.

(** Ten blocks of 24 bytes, freed and allocated again: the second batch
    is the first one, last freed first, and the usage after it is the
    usage after the first batch. *)
Example sample_reuse :
  let '(first, mm1) := Sample.mallocMany 10 24 Sample.fresh in
  let mm2 := Sample.freeMany first 24 mm1 in
  let '(second, mm3) := Sample.mallocMany 10 24 mm2 in
  second = reverse first /\
  NoDup first /\
  mmUsage (m_stats mm1) = 900 + 10 * 32 /\
  mmUsage (m_stats mm2) = 900 /\
  mmUsage (m_stats mm3) = mmUsage (m_stats mm1).
Proof.
  vm_compute. repeat split. apply NoDup_ListNoDup.
  repeat (constructor; [cbn; intuition discriminate|]). constructor.
Qed.

(** A budget of 1000 with 900 in use and nothing to reconcile. *)
Example sample_budget :
  let check :=
    preAllocOOM Design.usage (Design.refreshStatsImpl true)
                Design.refreshStatsHelperExceeded Sample.fresh in
  (check 50).1 = false /\ (check 150).1 = true.
Proof. vm_compute. done. Qed.

(** ** Word arithmetic *)

Lemma to_size_t_small z : 0 <= z < 2 ^ 64 -> to_size_t z = z.
Proof. intros Hz. unfold to_size_t, modulus. apply Z.mod_small; lia. Qed.

Lemma to_ssize_t_small z : - 2 ^ 63 <= z < 2 ^ 63 -> to_ssize_t z = z.
Proof.
  intros Hz. unfold to_ssize_t, modulus, half_modulus.
  rewrite Z.mod_small; lia.
Qed.

Lemma to_ssize_t_size_t z : to_ssize_t (to_size_t z) = to_ssize_t z.
Proof.
  unfold to_ssize_t, to_size_t, modulus, half_modulus.
  rewrite Zplus_mod_idemp_l. reflexivity.
Qed.

Lemma fls64_bounds t :
  1 <= t < 2 ^ 64 -> 0 <= fls64 t <= 63 /\ 2 ^ fls64 t <= t < 2 ^ (fls64 t + 1).
Proof.
  intros Ht. unfold fls64.
  pose proof (Z.log2_spec t ltac:(lia)) as Hspec.
  pose proof (Z.log2_nonneg t) as Hnn.
  replace (Z.succ (Z.log2 t)) with (Z.log2 t + 1) in Hspec by lia.
  split; [split; [lia|] | lia].
  destruct (Z_lt_le_dec (Z.log2 t) 64) as [Hlt|Hge]; [lia|].
  assert (2 ^ 64 <= 2 ^ Z.log2 t) by (apply Z.pow_le_mono_r; lia). lia.
Qed.

Lemma pow2_pos k : 0 <= k -> 0 < 2 ^ k.
Proof. intros. apply Z.pow_pos_nonneg; lia. Qed.

Lemma pow2_succ k : 0 <= k -> 2 ^ (k + 1) = 2 * 2 ^ k.
Proof. intros. rewrite Z.pow_add_r by lia. lia. Qed.

Lemma pow2_le a b : 0 <= a <= b -> 2 ^ a <= 2 ^ b.
Proof. intros. apply Z.pow_le_mono_r; lia. Qed.

Lemma pow2_split a b : 0 <= a -> 0 <= b -> 2 ^ (a + b) = 2 ^ a * 2 ^ b.
Proof. intros. apply Z.pow_add_r; lia. Qed.

Lemma lin_lt_pow2 k : 0 <= k -> k + 2 <= 2 ^ (k + 1).
Proof.
  intros Hk. pose proof (Z.pow_gt_lin_r 2 (k + 1) ltac:(lia) ltac:(lia)). lia.
Qed.

(** Rounding [t] down and up to a multiple of [d]. *)
Lemma div_floor_ceil t d :
  0 < d -> t / d * d <= t < (t / d + 1) * d.
Proof.
  intros Hd. pose proof (Z.div_mod t d ltac:(lia)).
  pose proof (Z.mod_pos_bound t d Hd). nia.
Qed.

(** ** The class sizes *)

Section ClassBytes.

Variables P Q : Z.
Hypothesis HP : 0 <= P.
Hypothesis HQ : 0 <= Q.

Lemma classBytes_denormal i :
  -1 <= i < 2 ^ P -> classBytes P Q i = (i + 1) * 2 ^ Q.
Proof using HP HQ.
  intros Hi. unfold classBytes. rewrite Z.shiftl_1_l.
  destruct (Z.ltb_spec i (2 ^ P)); [|lia].
  rewrite Z.shiftl_mul_pow2 by lia. reflexivity.
Qed.

(** A normal class index is [exp * 2^P + r] with the raw mantissa [r]
    carrying its leading one. *)
Lemma classBytes_normal e r :
  0 <= e -> 2 ^ P <= r < 2 * 2 ^ P ->
  classBytes P Q (e * 2 ^ P + r) = (r + 1) * 2 ^ (e + Q).
Proof using HP HQ.
  intros He Hr. unfold classBytes. rewrite Z.shiftl_1_l.
  pose proof (pow2_pos P HP) as HB.
  destruct (Z.ltb_spec (e * 2 ^ P + r) (2 ^ P)); [nia|].
  replace (2 ^ P - 1) with (Z.ones P)
    by (rewrite Z.ones_equiv; lia).
  rewrite Z.land_ones, Z.shiftr_div_pow2 by lia.
  replace (e * 2 ^ P + r) with ((r - 2 ^ P) + (e + 1) * 2 ^ P) by lia.
  rewrite Z.mod_add, Z.div_add by lia.
  rewrite Z.mod_small, Z.div_small by lia.
  rewrite Z.shiftl_mul_pow2 by lia.
  f_equal; [lia | f_equal; lia].
Qed.

Lemma classBytes_normal_pred e r :
  0 <= e -> 2 ^ P <= r < 2 * 2 ^ P ->
  classBytes P Q (e * 2 ^ P + r - 1) = r * 2 ^ (e + Q).
Proof using HP HQ.
  intros He Hr. pose proof (pow2_pos P HP) as HB.
  destruct (Z.eq_dec r (2 ^ P)) as [->|Hne].
  - destruct (Z.eq_dec e 0) as [->|He0].
    + rewrite classBytes_denormal by lia.
      replace (0 * 2 ^ P + 2 ^ P - 1 + 1) with (2 ^ P) by lia.
      reflexivity.
    + replace (e * 2 ^ P + 2 ^ P - 1)
        with ((e - 1) * 2 ^ P + (2 * 2 ^ P - 1)) by lia.
      rewrite classBytes_normal by lia.
      replace (e + Q) with (e - 1 + Q + 1) by lia.
      rewrite (pow2_succ (e - 1 + Q)) by lia. lia.
  - replace (e * 2 ^ P + r - 1) with (e * 2 ^ P + (r - 1)) by lia.
    rewrite classBytes_normal by lia. f_equal; lia.
Qed.

(** Every index at or above [2^P] has the normal form. *)
Lemma normal_form i :
  2 ^ P <= i ->
  exists e r, 0 <= e /\ 2 ^ P <= r < 2 * 2 ^ P /\ i = e * 2 ^ P + r.
Proof using HP.
  intros Hi. pose proof (pow2_pos P HP) as HB.
  exists (i / 2 ^ P - 1), (i mod 2 ^ P + 2 ^ P).
  pose proof (Z.div_mod i (2 ^ P) ltac:(lia)).
  pose proof (Z.mod_pos_bound i (2 ^ P) HB).
  assert (1 <= i / 2 ^ P) by (apply Z.div_le_lower_bound; lia).
  repeat split; lia.
Qed.

(** The step from one class to the next is a positive multiple of the
    quantum. *)
Lemma classBytes_step i :
  0 <= i ->
  exists k, 0 <= k /\
    classBytes P Q i - classBytes P Q (i - 1) = 2 ^ k * 2 ^ Q.
Proof using HP HQ.
  intros Hi. destruct (Z_lt_le_dec i (2 ^ P)) as [Hlt|Hge].
  - exists 0. rewrite !classBytes_denormal by lia. lia.
  - destruct (normal_form i Hge) as (e & r & He & Hr & ->).
    exists e. rewrite classBytes_normal, classBytes_normal_pred by lia.
    rewrite pow2_split by lia. lia.
Qed.

Lemma classBytes_lt_succ i :
  0 <= i -> classBytes P Q (i - 1) < classBytes P Q i.
Proof using HP HQ.
  intros Hi. destruct (classBytes_step i Hi) as (k & Hk & Heq).
  pose proof (pow2_pos k Hk). pose proof (pow2_pos Q HQ). nia.
Qed.

Lemma classBytes_mono i j :
  -1 <= i <= j -> classBytes P Q i <= classBytes P Q j.
Proof using HP HQ.
  intros [Hi Hij]. replace j with (i + Z.of_nat (Z.to_nat (j - i))) by lia.
  induction (Z.to_nat (j - i)) as [|n IH].
  - replace (i + Z.of_nat 0) with i by lia. lia.
  - pose proof (classBytes_lt_succ (i + Z.of_nat (S n)) ltac:(lia)) as Hs.
    replace (i + Z.of_nat (S n) - 1) with (i + Z.of_nat n) in Hs by lia.
    lia.
Qed.

Lemma classBytes_strict i j :
  -1 <= i < j -> classBytes P Q i < classBytes P Q j.
Proof using HP HQ.
  intros Hij. pose proof (classBytes_lt_succ j ltac:(lia)).
  pose proof (classBytes_mono i (j - 1) ltac:(lia)). lia.
Qed.

(** Comparing sizes compares indices. *)
Lemma classBytes_lt_inv i j :
  -1 <= i -> -1 <= j -> classBytes P Q i < classBytes P Q j -> i < j.
Proof using HP HQ.
  intros Hi Hj Hlt. destruct (Z_lt_le_dec i j) as [|Hge]; [done|].
  pose proof (classBytes_mono j i ltac:(lia)). lia.
Qed.

(** Class sizes are whole numbers of quanta. *)
Lemma classBytes_quanta i :
  -1 <= i -> exists c, 0 <= c /\ classBytes P Q i = c * 2 ^ Q.
Proof using HP HQ.
  intros Hi. destruct (Z_lt_le_dec i (2 ^ P)) as [Hlt|Hge].
  - exists (i + 1). rewrite classBytes_denormal by lia. lia.
  - destruct (normal_form i Hge) as (e & r & He & Hr & ->).
    exists ((r + 1) * 2 ^ e). rewrite classBytes_normal by lia.
    rewrite pow2_split by lia. pose proof (pow2_pos e He).
    pose proof (pow2_pos P HP). split; nia.
Qed.

End ClassBytes.

(** ** Classification by computation *)

Section Classification.

Variables P Q : Z.
Hypothesis HP : 0 <= P.
Hypothesis HQ : 0 <= Q.
Hypothesis HPQ : P + Q < 64.

Lemma computeSize2Index_denormal s :
  1 < s <= 2 ^ 64 -> fls64 (s - 1) < P + Q ->
  computeSize2Index P Q s = (s - 1) / 2 ^ Q.
Proof using HP HQ HPQ.
  intros Hs Hn. unfold computeSize2Index.
  rewrite (to_size_t_small (s - 1)), (to_size_t_small (P + Q)) by lia.
  destruct (Z.ltb_spec (fls64 (s - 1)) (P + Q)); [|lia].
  apply Z.shiftr_div_pow2; lia.
Qed.

(** Bounds on the raw mantissa. *)
Lemma rawMantissa_bounds t n :
  P <= n -> 2 ^ n <= t < 2 ^ (n + 1) ->
  2 ^ P <= t / 2 ^ (n - P) < 2 * 2 ^ P.
Proof using HP.
  intros Hn Ht. pose proof (pow2_pos (n - P) ltac:(lia)) as Hd.
  assert (2 ^ n = 2 ^ P * 2 ^ (n - P)) as Hsplit
    by (rewrite <- pow2_split by lia; f_equal; lia).
  rewrite pow2_succ in Ht by lia. split.
  - apply Z.div_le_lower_bound; lia.
  - apply Z.div_lt_upper_bound; lia.
Qed.

Lemma computeSize2Index_normal s :
  1 < s <= 2 ^ 64 -> P + Q <= fls64 (s - 1) ->
  computeSize2Index P Q s =
    (fls64 (s - 1) - (P + Q)) * 2 ^ P
    + (s - 1) / 2 ^ (fls64 (s - 1) - P).
Proof using HP HQ HPQ.
  intros Hs Hn. unfold computeSize2Index.
  destruct (fls64_bounds (s - 1) ltac:(lia)) as [Hn63 Ht].
  rewrite (to_size_t_small (s - 1)), (to_size_t_small (P + Q)) by lia.
  destruct (Z.ltb_spec (fls64 (s - 1)) (P + Q)); [lia|].
  set (n := fls64 (s - 1)) in *.
  rewrite (to_size_t_small (n - (P + Q))), (to_size_t_small (n - P)) by lia.
  rewrite Z.shiftl_mul_pow2, Z.shiftr_div_pow2 by lia.
  pose proof (rawMantissa_bounds (s - 1) n ltac:(lia) Ht) as Hr.
  pose proof (pow2_pos P HP) as HB.
  pose proof (lin_lt_pow2 (63 - P) ltac:(lia)) as Hlin.
  replace (63 - P + 1) with (64 - P) in Hlin by lia.
  assert (2 ^ (64 - P) * 2 ^ P = 2 ^ 64) as H64
    by (rewrite <- pow2_split by lia; f_equal; lia).
  assert ((n - (P + Q) + 2) * 2 ^ P <= 2 ^ 64) by nia.
  rewrite (to_size_t_small ((n - (P + Q)) * 2 ^ P)) by nia.
  apply to_size_t_small. nia.
Qed.

(** [computeSize2Index] is the ceiling of a size onto the class sizes. *)
Lemma computeSize2Index_ceiling s :
  1 < s <= 2 ^ 64 ->
  0 <= computeSize2Index P Q s /\
  classBytes P Q (computeSize2Index P Q s - 1) < s
    <= classBytes P Q (computeSize2Index P Q s).
Proof using HP HQ HPQ.
  intros Hs.
  destruct (fls64_bounds (s - 1) ltac:(lia)) as [Hn63 Ht].
  pose proof (pow2_pos P HP) as HB. pose proof (pow2_pos Q HQ) as HU.
  destruct (Z_lt_le_dec (fls64 (s - 1)) (P + Q)) as [Hden|Hnor].
  - rewrite computeSize2Index_denormal by lia.
    assert (0 <= (s - 1) / 2 ^ Q) by (apply Z.div_pos; lia).
    assert ((s - 1) / 2 ^ Q < 2 ^ P).
    { apply Z.div_lt_upper_bound; [lia|].
      rewrite <- pow2_split by lia.
      pose proof (pow2_le (fls64 (s - 1) + 1) (Q + P) ltac:(lia)). lia. }
    rewrite !classBytes_denormal by lia.
    pose proof (div_floor_ceil (s - 1) (2 ^ Q) HU). lia.
  - rewrite computeSize2Index_normal by lia.
    set (n := fls64 (s - 1)) in *.
    pose proof (rawMantissa_bounds (s - 1) n ltac:(lia) Ht) as Hr.
    rewrite classBytes_normal, classBytes_normal_pred by lia.
    replace (n - (P + Q) + Q) with (n - P) by lia.
    pose proof (div_floor_ceil (s - 1) (2 ^ (n - P))
                  (pow2_pos (n - P) ltac:(lia))).
    split; [nia | lia].
Qed.

(** The direct rounding of [sizeClass] lands on the size of the class
    that [computeSize2Index] finds. *)
Lemma sizeClass_computeSize2Index s :
  1 < s <= 2 ^ 64 ->
  classBytes P Q (computeSize2Index P Q s) < 2 ^ 64 ->
  sizeClass P Q s = classBytes P Q (computeSize2Index P Q s).
Proof using HP HQ HPQ.
  intros Hs Hfit.
  destruct (fls64_bounds (s - 1) ltac:(lia)) as [Hn63 Ht].
  pose proof (pow2_pos P HP) as HB. pose proof (pow2_pos Q HQ) as HU.
  unfold sizeClass. rewrite (to_size_t_small (s - 1)) by lia.
  rewrite to_ssize_t_size_t.
  rewrite (to_ssize_t_small (fls64 (s - 1) - P)),
          (to_ssize_t_small Q) by lia.
  set (n := fls64 (s - 1)) in *.
  destruct (Z.ltb_spec (n - P) Q) as [Hden|Hnor].
  - rewrite computeSize2Index_denormal in Hfit |- * by (fold n; lia).
    assert (0 <= (s - 1) / 2 ^ Q) by (apply Z.div_pos; lia).
    assert ((s - 1) / 2 ^ Q < 2 ^ P).
    { apply Z.div_lt_upper_bound; [lia|].
      rewrite <- pow2_split by lia.
      pose proof (pow2_le (n + 1) (Q + P) ltac:(lia)). lia. }
    rewrite classBytes_denormal in Hfit |- * by lia.
    rewrite (to_size_t_small Q) by lia.
    rewrite Z.shiftr_div_pow2 by lia.
    rewrite (to_size_t_small ((s - 1) / 2 ^ Q + 1)) by nia.
    rewrite Z.shiftl_mul_pow2 by lia.
    apply to_size_t_small. nia.
  - rewrite computeSize2Index_normal in Hfit |- * by (fold n; lia).
    fold n in Hfit |- *.
    pose proof (rawMantissa_bounds (s - 1) n ltac:(lia) Ht) as Hr.
    rewrite classBytes_normal in Hfit |- * by lia.
    replace (n - (P + Q) + Q) with (n - P) in Hfit |- * by lia.
    pose proof (pow2_pos (n - P) ltac:(lia)) as Hd.
    rewrite (to_size_t_small (n - P)) by lia.
    rewrite Z.shiftr_div_pow2 by lia.
    rewrite (to_size_t_small ((s - 1) / 2 ^ (n - P) + 1)) by nia.
    rewrite Z.shiftl_mul_pow2 by lia.
    apply to_size_t_small. nia.
Qed.

End Classification.

(** ** The tables *)

Lemma filter_all {A} (f : A -> bool) (l : list A) :
  Forall (fun x => f x = true) l -> List.filter f l = l.
Proof.
  induction 1 as [|x l Hx _ IH]; simpl; [done|]. rewrite Hx, IH. done.
Qed.

Lemma filter_none {A} (f : A -> bool) (l : list A) :
  Forall (fun x => f x = false) l -> List.filter f l = [].
Proof.
  induction 1 as [|x l Hx _ IH]; simpl; [done|]. rewrite Hx. done.
Qed.

Section Tables.

Variables P Q N L : Z.
Hypothesis HP : 0 <= P.
Hypothesis HQ : 0 <= Q.

Lemma sizeIndex2Size_classBytes i :
  0 <= i < N -> sizeIndex2Size P Q N i = classBytes P Q i.
Proof.
  intros Hi. unfold sizeIndex2Size, kSizeIndex2Size.
  rewrite list_lookup_fmap, lookup_seqZ_lt by lia. simpl.
  f_equal. lia.
Qed.

Lemma kMaxSizeClass_classBytes :
  0 < N -> kMaxSizeClass P Q N = classBytes P Q (N - 1).
Proof. intros. apply sizeIndex2Size_classBytes. lia. Qed.

Lemma elem_of_kSizeIndex2Size x :
  x ∈ kSizeIndex2Size P Q N <-> exists j, 0 <= j < N /\ x = classBytes P Q j.
Proof.
  unfold kSizeIndex2Size. rewrite list_elem_of_fmap.
  setoid_rewrite elem_of_seqZ. split; intros (j & H1 & H2); exists j.
  - split; [lia | done].
  - split; [done | lia].
Qed.

(** The classes the lookup table covers are a prefix of all classes. *)
Lemma lookup_classes_prefix j :
  0 <= j < N ->
  List.filter (fun index => classBytes P Q index <=? classBytes P Q j)
              (seqZ 0 N)
  = seqZ 0 (j + 1).
Proof using HP HQ.
  intros Hj. replace N with ((j + 1) + (N - (j + 1))) at 1 by lia.
  rewrite seqZ_app, List.filter_app by lia.
  rewrite filter_all, filter_none; [apply app_nil_r | |].
  - apply Forall_seqZ. intros i Hi. apply Z.leb_gt.
    apply classBytes_strict; lia.
  - apply Forall_seqZ. intros i Hi. apply Z.leb_le.
    apply classBytes_mono; lia.
Qed.

(** Number of quanta in a class size. *)
Lemma classBytes_div i :
  -1 <= i -> classBytes P Q i = classBytes P Q i / 2 ^ Q * 2 ^ Q.
Proof using HP HQ.
  intros Hi. destruct (classBytes_quanta P Q HP HQ i Hi) as (c & _ & ->).
  rewrite Z.div_mul; [done|]. pose proof (pow2_pos Q HQ). lia.
Qed.

Lemma length_lookupSlots i :
  0 <= i ->
  Z.of_nat (length (lookupSlots P Q i))
  = classBytes P Q i / 2 ^ Q - classBytes P Q (i - 1) / 2 ^ Q.
Proof using HP HQ.
  intros Hi. unfold lookupSlots. rewrite length_replicate.
  pose proof (pow2_pos Q HQ) as HU.
  pose proof (classBytes_lt_succ P Q HP HQ i Hi) as Hlt.
  rewrite (classBytes_div i), (classBytes_div (i - 1)) in Hlt |- * by lia.
  rewrite !Z.div_mul by lia.
  rewrite <- Z.mul_sub_distr_r, Z.shiftr_div_pow2, Z.div_mul by lia.
  nia.
Qed.

Lemma lookup_lookupSlots i (k : nat) :
  (k < length (lookupSlots P Q i))%nat -> lookupSlots P Q i !! k = Some i.
Proof.
  unfold lookupSlots. rewrite length_replicate. apply lookup_replicate_2.
Qed.

Lemma length_lookup_prefix (n : nat) :
  Z.of_nat (length (flat_map (lookupSlots P Q) (seqZ 0 (Z.of_nat n))))
  = classBytes P Q (Z.of_nat n - 1) / 2 ^ Q.
Proof using HP HQ.
  induction n as [|n IH].
  - simpl. rewrite classBytes_denormal by (pose proof (pow2_pos P HP); lia).
    replace (0 - 1 + 1) with 0 by lia. done.
  - rewrite seqZ_S, flat_map_app, length_app, Nat2Z.inj_add, IH.
    cbn [flat_map]. rewrite app_nil_r, Z.add_0_l, length_lookupSlots by lia.
    replace (Z.of_nat (S n) - 1) with (Z.of_nat n) by lia. lia.
Qed.

(** Slot [k] holds the class whose span of quanta contains it. *)
Lemma lookup_prefix_slot (n : nat) i (k : nat) :
  0 <= i < Z.of_nat n ->
  classBytes P Q (i - 1) / 2 ^ Q <= Z.of_nat k < classBytes P Q i / 2 ^ Q ->
  flat_map (lookupSlots P Q) (seqZ 0 (Z.of_nat n)) !! k = Some i.
Proof using HP HQ.
  pose proof (pow2_pos Q HQ) as HU.
  induction n as [|n IH]; intros Hi Hk; [lia|].
  rewrite seqZ_S, flat_map_app. cbn [flat_map].
  rewrite app_nil_r, Z.add_0_l.
  pose proof (length_lookup_prefix n) as Hlen.
  destruct (Z.eq_dec i (Z.of_nat n)) as [->|Hne].
  - rewrite lookup_app_r by lia. apply lookup_lookupSlots.
    pose proof (length_lookupSlots (Z.of_nat n) ltac:(lia)) as Hl. lia.
  - rewrite lookup_app_l; [apply IH; lia|].
    pose proof (classBytes_mono P Q HP HQ i (Z.of_nat n - 1) ltac:(lia)) as Hm.
    rewrite (classBytes_div i), (classBytes_div (Z.of_nat n - 1)) in Hm by lia.
    nia.
Qed.

Hypothesis HL : L ∈ kSizeIndex2Size P Q N.

(** A read of the lookup table finds the ceiling class. *)
Lemma lookupSmallSize2Index_ceiling s i :
  1 <= s <= L -> s <= 2 ^ 64 ->
  0 <= i -> classBytes P Q (i - 1) < s <= classBytes P Q i ->
  lookupSmallSize2Index P Q N L s = i.
Proof using HP HQ HL.
  intros Hs Hs64 Hi Hceil. pose proof (pow2_pos Q HQ) as HU.
  apply elem_of_kSizeIndex2Size in HL as (j & Hj & HLj).
  unfold lookupSmallSize2Index, kSmallSize2Index.
  rewrite HLj, lookup_classes_prefix by done.
  rewrite to_size_t_small, Z.shiftr_div_pow2 by lia.
  assert (i < j + 1) as Hij.
  { enough (i - 1 < j) by lia.
    apply (classBytes_lt_inv P Q HP HQ); lia. }
  assert (0 <= (s - 1) / 2 ^ Q) by (apply Z.div_pos; lia).
  replace (j + 1) with (Z.of_nat (Z.to_nat (j + 1))) by lia.
  rewrite (lookup_prefix_slot _ i); [done | lia |].
  rewrite Z2Nat.id by lia.
  rewrite (classBytes_div i), (classBytes_div (i - 1)) in Hceil by lia.
  split.
  - apply Z.div_le_lower_bound; lia.
  - apply Z.div_lt_upper_bound; lia.
Qed.

End Tables.

(** ** The engine on its domain *)

Section Engine.

Variables P Q N L : Z.
Hypothesis HP : 0 <= P.
Hypothesis HQ : 0 <= Q.
Hypothesis HPQ : P + Q < 64.
Hypothesis Hfit : kMaxSizeClass P Q N < 2 ^ 64.
Hypothesis HL : L ∈ kSizeIndex2Size P Q N.

Lemma classes_nonempty : 0 < N.
Proof using HL.
  apply elem_of_kSizeIndex2Size in HL as (j & Hj & _). lia.
Qed.

(** On the domain of the engine the computed index is a class index. *)
Lemma computeSize2Index_range s :
  1 < s <= kMaxSizeClass P Q N ->
  0 <= computeSize2Index P Q s < N.
Proof using HP HQ HPQ Hfit HL.
  intros Hs. pose proof classes_nonempty as HN.
  rewrite kMaxSizeClass_classBytes in Hs, Hfit by done.
  destruct (computeSize2Index_ceiling P Q HP HQ HPQ s ltac:(lia))
    as (H0 & Hlo & Hhi).
  split; [done|].
  enough (computeSize2Index P Q s - 1 < N - 1) by lia.
  apply (classBytes_lt_inv P Q HP HQ); lia.
Qed.

(** The table lookup and the computation classify alike. *)
Lemma size2Index_computeSize2Index s :
  1 < s <= kMaxSizeClass P Q N ->
  size2Index P Q N L s = computeSize2Index P Q s.
Proof using HP HQ HPQ Hfit HL.
  intros Hs. unfold size2Index.
  destruct (Z.leb_spec s L) as [HsL|HsL]; [|done].
  destruct (computeSize2Index_ceiling P Q HP HQ HPQ s ltac:(lia))
    as (H0 & Hceil).
  apply (lookupSmallSize2Index_ceiling P Q N L HP HQ HL); [lia..|done].
Qed.

End Engine.

(** C1: for every size [s] with [1 < s <= kMaxSizeClass], the class that
    [size2Index] returns is a class of the table, its byte size
    [sizeIndex2Size (size2Index s)] is at least [s], and no class of
    smaller byte size is at least [s]: the composition is the ceiling of
    [s] onto the class sizes.  The class is moreover the first one, by
    index, that is large enough, and the only one whose size is the least
    that is large enough. *)
Theorem size2Index_ceiling (P Q N L : Z) :
  0 <= P -> 0 <= Q -> P + Q < 64 ->
  kMaxSizeClass P Q N < 2 ^ 64 ->
  L ∈ kSizeIndex2Size P Q N ->
  forall s, 1 < s <= kMaxSizeClass P Q N ->
    0 <= size2Index P Q N L s < N /\
    s <= sizeIndex2Size P Q N (size2Index P Q N L s) /\
    (forall j, 0 <= j < N ->
       sizeIndex2Size P Q N j < sizeIndex2Size P Q N (size2Index P Q N L s) ->
       sizeIndex2Size P Q N j < s) /\
    (forall j, 0 <= j < N ->
       s <= sizeIndex2Size P Q N j -> size2Index P Q N L s <= j) /\
    (forall j, 0 <= j < N ->
       s <= sizeIndex2Size P Q N j ->
       (forall k, 0 <= k < N -> s <= sizeIndex2Size P Q N k ->
          sizeIndex2Size P Q N j <= sizeIndex2Size P Q N k) ->
       j = size2Index P Q N L s).
Proof.
  intros HP HQ HPQ Hfit HL s Hs.
  rewrite (size2Index_computeSize2Index P Q N L) by done.
  pose proof (computeSize2Index_range P Q N L HP HQ HPQ Hfit HL s Hs) as Hi.
  pose proof (classes_nonempty P Q N L HL) as HN.
  rewrite kMaxSizeClass_classBytes in Hs, Hfit by done.
  destruct (computeSize2Index_ceiling P Q HP HQ HPQ s ltac:(lia))
    as (_ & Hlo & Hhi).
  set (i := computeSize2Index P Q s) in *.
  rewrite (sizeIndex2Size_classBytes P Q N i) by done.
  assert (forall j, 0 <= j < N -> s <= sizeIndex2Size P Q N j -> i <= j)
    as Hfirst.
  { intros j Hj. rewrite sizeIndex2Size_classBytes by done. intros Hge.
    enough (i - 1 < j) by lia.
    apply (classBytes_lt_inv P Q HP HQ); lia. }
  split; [done|]. split; [done|]. split; [|split; [exact Hfirst|]].
  - intros j Hj. rewrite sizeIndex2Size_classBytes by done. intros Hlt.
    apply (classBytes_lt_inv P Q HP HQ) in Hlt; [|lia..].
    pose proof (classBytes_mono P Q HP HQ j (i - 1) ltac:(lia)). lia.
  - intros j Hj Hge Hleast.
    pose proof (Hfirst j Hj Hge) as Hij.
    specialize (Hleast i Hi).
    rewrite !sizeIndex2Size_classBytes in Hleast by done.
    specialize (Hleast Hhi).
    destruct (Z.eq_dec j i) as [|Hne]; [done|].
    pose proof (classBytes_strict P Q HP HQ i j ltac:(lia)). lia.
Qed.

Lemma size2Index_ceiling_witness :
  let s2i := size2Index 2 4 232 4096 in
  let i2s := sizeIndex2Size 2 4 232 in
  0 <= s2i 4097 < 232 /\
  4097 <= i2s (s2i 4097) /\
  (forall j, 0 <= j < 232 -> i2s j < i2s (s2i 4097) -> i2s j < 4097) /\
  (forall j, 0 <= j < 232 -> 4097 <= i2s j -> s2i 4097 <= j) /\
  (forall j, 0 <= j < 232 -> 4097 <= i2s j ->
     (forall k, 0 <= k < 232 -> 4097 <= i2s k -> i2s j <= i2s k) ->
     j = s2i 4097).
Proof.
  apply (size2Index_ceiling 2 4 232 4096); [lia | lia | lia | | | ].
  - vm_compute. reflexivity.
  - apply elem_of_kSizeIndex2Size. exists 27. split; [lia | reflexivity].
  - vm_compute. split; [reflexivity | discriminate].
Defined.

(** C2: for every size [s] with [1 < s <= kMaxSizeClass], the direct
    rounding of [sizeClass s] equals [sizeIndex2Size (size2Index s)], on
    the table-lookup branch of [size2Index] as on the computed one. *)
Theorem sizeClass_size2Index (P Q N L : Z) :
  0 <= P -> 0 <= Q -> P + Q < 64 ->
  kMaxSizeClass P Q N < 2 ^ 64 ->
  L ∈ kSizeIndex2Size P Q N ->
  forall s, 1 < s <= kMaxSizeClass P Q N ->
    sizeClass P Q s = sizeIndex2Size P Q N (size2Index P Q N L s).
Proof.
  intros HP HQ HPQ Hfit HL s Hs.
  rewrite (size2Index_computeSize2Index P Q N L) by done.
  pose proof (computeSize2Index_range P Q N L HP HQ HPQ Hfit HL s Hs) as Hi.
  pose proof (classes_nonempty P Q N L HL) as HN.
  rewrite sizeIndex2Size_classBytes by done.
  rewrite kMaxSizeClass_classBytes in Hs, Hfit by done.
  apply sizeClass_computeSize2Index; [done.. | lia |].
  pose proof (classBytes_mono P Q HP HQ (computeSize2Index P Q s) (N - 1)
                ltac:(lia)).
  lia.
Qed.

Lemma sizeClass_size2Index_witness :
  sizeClass 2 4 24 = sizeIndex2Size 2 4 232 (size2Index 2 4 232 4096 24)
  /\ sizeClass 2 4 5000 = sizeIndex2Size 2 4 232 (size2Index 2 4 232 4096 5000).
Proof.
  split; apply (sizeClass_size2Index 2 4 232 4096); try lia;
    try (vm_compute; reflexivity);
    try (apply elem_of_kSizeIndex2Size; exists 27; split; [lia | reflexivity]);
    (vm_compute; split; [reflexivity | discriminate]).
Defined.

(** ** Usage accounting of the small-object path *)

Create HintDb setters discriminated.

#[local] Hint Unfold set_m_freelists set_m_memory set_m_stats
  set_m_statsIntervalActive set_m_couldOOM set_currentSmallAllocs
  set_m_exiting set_m_bigs set_m_front
  set_mmUsage set_peakIntervalUsage set_peakIntervalCap : setters.

(** Unfold the field updates and let the projections compute. *)
Ltac unfold_setters := autounfold with setters in *; cbn in *.

Lemma to_ssize_t_range z : - 2 ^ 63 <= to_ssize_t z < 2 ^ 63.
Proof.
  unfold to_ssize_t, modulus, half_modulus.
  pose proof (Z.mod_pos_bound (z + 2 ^ 63) (2 ^ 64) ltac:(lia)). lia.
Qed.

(** Adding and then subtracting the same number of bytes on 64-bit words
    gives back the counter, whether or not the sum wrapped. *)
Lemma to_ssize_t_add_sub u b :
  - 2 ^ 63 <= u < 2 ^ 63 -> to_ssize_t (to_ssize_t (u + b) - b) = u.
Proof.
  intros Hu. unfold to_ssize_t, modulus, half_modulus.
  replace ((u + b + 2 ^ 63) mod 2 ^ 64 - 2 ^ 63 - b + 2 ^ 63)
    with ((u + b + 2 ^ 63) mod 2 ^ 64 - b) by lia.
  rewrite Zminus_mod_idemp_l.
  replace (u + b + 2 ^ 63 - b) with (u + 2 ^ 63) by lia.
  rewrite Z.mod_small; lia.
Qed.

Section SmallPath.

Variables P Q N L : Z.
Variable debug : bool.
Variable requestEagerGC : MemoryManager -> MemoryManager.
Variable mallocSmallSizeSlow : MemoryManager -> Z -> Z -> Z * MemoryManager.
Variable freeBigSize : MemoryManager -> Z -> MemoryManager.

(** What the small-object path relies on: a request for a collection and
    the carving of a fresh block leave the statistics and the mode as they
    are. *)
Hypothesis requestEagerGC_frame : forall mm,
  m_stats (requestEagerGC mm) = m_stats mm /\
  m_bypassSlabAlloc (requestEagerGC mm) = m_bypassSlabAlloc mm.
Hypothesis mallocSmallSizeSlow_frame : forall mm nbytes index,
  m_stats (mallocSmallSizeSlow mm nbytes index).2 = m_stats mm /\
  m_bypassSlabAlloc (mallocSmallSizeSlow mm nbytes index).2
  = m_bypassSlabAlloc mm.

Lemma mallocSmallIndex_accounting mm index :
  let mm' :=
    (mallocSmallIndex P Q N debug requestEagerGC mallocSmallSizeSlow
                      mm index).2 in
  mmUsage (m_stats mm')
  = to_ssize_t (mmUsage (m_stats mm) + sizeIndex2Size P Q N index)
  /\ m_bypassSlabAlloc mm' = m_bypassSlabAlloc mm.
Proof using requestEagerGC_frame mallocSmallSizeSlow_frame.
  unfold mallocSmallIndex.
  assert (m_stats (if debug then requestEagerGC mm else mm) = m_stats mm
          /\ m_bypassSlabAlloc (if debug then requestEagerGC mm else mm)
             = m_bypassSlabAlloc mm) as [Hs Hb]
    by (destruct debug; [apply requestEagerGC_frame | done]).
  set (mm0 := if debug then requestEagerGC mm else mm) in *.
  destruct (FreeList.likelyPop _ _) as [p fl].
  destruct (p =? 0).
  - destruct (mallocSmallSizeSlow_frame
                (set_m_freelists (<[Z.to_nat index:=fl]> (m_freelists
                   (set_m_stats (set_mmUsage
                      (to_ssize_t (mmUsage (m_stats mm0)
                                   + sizeIndex2Size P Q N index))
                      (m_stats mm0)) mm0)))
                   (set_m_stats (set_mmUsage
                      (to_ssize_t (mmUsage (m_stats mm0)
                                   + sizeIndex2Size P Q N index))
                      (m_stats mm0)) mm0))
                (sizeIndex2Size P Q N index) index) as [Hs' Hb'].
    cbn zeta. rewrite Hs', Hb'. cbn. rewrite Hs, Hb. done.
  - cbn. rewrite Hs, Hb. done.
Qed.

Lemma freeSmallIndex_accounting mm ptr index :
  m_bypassSlabAlloc mm = false ->
  mmUsage (m_stats (freeSmallIndex P Q N freeBigSize mm ptr index))
  = to_ssize_t (mmUsage (m_stats mm) - sizeIndex2Size P Q N index).
Proof.
  intros Hmode. unfold freeSmallIndex. rewrite Hmode.
  destruct (FreeList.push _ _ _) as [fl mem]. reflexivity.
Qed.

(** With slab recycling in use, a small allocation and the free of its
    block cancel in the usage counter, whatever the helpers are. *)
Lemma slab_alloc_free_usage mm index :
  - 2 ^ 63 <= mmUsage (m_stats mm) < 2 ^ 63 ->
  m_bypassSlabAlloc mm = false ->
  let '(p, mm') :=
    mallocSmallIndex P Q N debug requestEagerGC mallocSmallSizeSlow
                     mm index in
  mmUsage (m_stats (freeSmallIndex P Q N freeBigSize mm' p index))
  = mmUsage (m_stats mm).
Proof using requestEagerGC_frame mallocSmallSizeSlow_frame.
  intros Hrange Hmode.
  pose proof (mallocSmallIndex_accounting mm index) as [Hu Hb].
  destruct (mallocSmallIndex _ _ _ _ _ _ _ _) as [p mm']. cbn in Hu, Hb.
  rewrite freeSmallIndex_accounting by congruence.
  rewrite Hu. apply to_ssize_t_add_sub. done.
Qed.

End SmallPath.

Lemma design_requestEagerGC_frame mm :
  m_stats (Design.requestEagerGC mm) = m_stats mm /\
  m_bypassSlabAlloc (Design.requestEagerGC mm) = m_bypassSlabAlloc mm.
Proof. done. Qed.

Lemma design_mallocSmallSizeSlow_frame mm nbytes index :
  m_stats (Design.mallocSmallSizeSlow mm nbytes index).2 = m_stats mm /\
  m_bypassSlabAlloc (Design.mallocSmallSizeSlow mm nbytes index).2
  = m_bypassSlabAlloc mm.
Proof.
  unfold Design.mallocSmallSizeSlow. cbn.
  destruct (m_bypassSlabAlloc mm) eqn:Hmode; cbn; rewrite ?Hmode; done.
Qed.

Lemma freelists_empty_at mm index :
  freelists_empty mm = true -> FreeList.head (freelist_at mm index) = 0.
Proof.
  unfold freelists_empty, freelist_at. intros Hall.
  destruct (m_freelists mm !! Z.to_nat index) as [fl|] eqn:Hfl; [|done].
  rewrite forallb_forall in Hall. apply Z.eqb_eq, Hall.
  apply list_elem_of_In. eapply list_elem_of_lookup_2. exact Hfl.
Qed.

(** With slab recycling bypassed and the free list of the class empty,
    the block comes from the slow path, is tracked by the heap at the
    class size, and its free goes through the large-object path. *)
Lemma bypass_alloc_free_usage P Q N debug mm index :
  - 2 ^ 63 <= mmUsage (m_stats mm) < 2 ^ 63 ->
  m_bypassSlabAlloc mm = true ->
  FreeList.head (freelist_at mm index) = 0 ->
  let '(p, mm') :=
    mallocSmallIndex P Q N debug Design.requestEagerGC
                     Design.mallocSmallSizeSlow mm index in
  mmUsage (m_stats (freeSmallIndex P Q N Design.freeBigSize mm' p index))
  = mmUsage (m_stats mm).
Proof.
  intros Hrange Hmode Hempty.
  unfold mallocSmallIndex, Design.requestEagerGC, FreeList.likelyPop.
  replace (if debug then mm else mm) with mm by (by destruct debug).
  set (bytes := sizeIndex2Size P Q N index). clearbody bytes.
  change (freelist_at (set_m_stats ?s mm) index) with (freelist_at mm index).
  rewrite Hempty. cbn [Z.eqb negb].
  unfold Design.mallocSmallSizeSlow, freeSmallIndex, Design.freeBigSize.
  destruct mm; cbn in Hmode, Hrange; subst. unfold_setters.
  rewrite lookup_insert_eq. cbn.
  apply to_ssize_t_add_sub. done.
Qed.

(** C3: for every small size class, a small allocation
    ([mallocSmallIndex], [mallocSmallSize]) followed at once by the free of
    the returned block at the same class ([freeSmallIndex],
    [freeSmallSize]) leaves [m_stats.mmUsage] at the value it had before
    the allocation.  The counter is a 64-bit word; when slab recycling is
    bypassed the free lists hold no block. *)
Theorem small_alloc_free_usage (P Q N L : Z) (debug : bool)
        (mm : MemoryManager) :
  - 2 ^ 63 <= mmUsage (m_stats mm) < 2 ^ 63 ->
  (m_bypassSlabAlloc mm = true -> freelists_empty mm = true) ->
  (forall index,
     let '(p, mm') :=
       mallocSmallIndex P Q N debug Design.requestEagerGC
                        Design.mallocSmallSizeSlow mm index in
     mmUsage (m_stats (freeSmallIndex P Q N Design.freeBigSize mm' p index))
     = mmUsage (m_stats mm))
  /\
  (forall bytes,
     let '(p, mm') :=
       mallocSmallSize P Q N L debug Design.requestEagerGC
                       Design.mallocSmallSizeSlow mm bytes in
     mmUsage (m_stats (freeSmallSize P Q N L Design.freeBigSize mm' p bytes))
     = mmUsage (m_stats mm)).
Proof.
  intros Hrange Hempty.
  assert (forall index,
     let '(p, mm') :=
       mallocSmallIndex P Q N debug Design.requestEagerGC
                        Design.mallocSmallSizeSlow mm index in
     mmUsage (m_stats (freeSmallIndex P Q N Design.freeBigSize mm' p index))
     = mmUsage (m_stats mm)) as Hindex.
  { intros index. destruct (m_bypassSlabAlloc mm) eqn:Hmode.
    - apply bypass_alloc_free_usage; auto using freelists_empty_at.
    - apply slab_alloc_free_usage;
        auto using design_requestEagerGC_frame,
                   design_mallocSmallSizeSlow_frame. }
  split; [exact Hindex|].
  intros bytes. unfold mallocSmallSize, freeSmallSize. apply Hindex.
Qed.

Lemma small_alloc_free_usage_witness :
  (forall index,
     let '(p, mm') :=
       mallocSmallIndex 2 4 232 true Design.requestEagerGC
                        Design.mallocSmallSizeSlow Sample.bypassed index in
     mmUsage (m_stats (freeSmallIndex 2 4 232 Design.freeBigSize mm' p index))
     = 900)
  /\
  (forall bytes,
     let '(p, mm') :=
       mallocSmallSize 2 4 232 4096 true Design.requestEagerGC
                       Design.mallocSmallSizeSlow Sample.bypassed bytes in
     mmUsage
       (m_stats (freeSmallSize 2 4 232 4096 Design.freeBigSize mm' p bytes))
     = 900).
Proof.
  apply (small_alloc_free_usage 2 4 232 4096 true Sample.bypassed).
  - simpl. lia.
  - intros _. vm_compute. reflexivity.
Defined.

(** C10, as the code has it: with slab recycling bypassed,
    [freeSmallIndex ptr index] is the large-object free path
    [freeBigSize ptr] run on the manager whose count of small allocations
    at [index] is one less and whose other counts, free lists, node links,
    statistics and tracked blocks are as before: [freeSmallIndex] itself
    pushes on no free list and does not decrement [m_stats.mmUsage]; what
    becomes of the usage is decided by [freeBigSize]. *)
Theorem freeSmallIndex_bypass (P Q N : Z)
        (freeBigSize : MemoryManager -> Z -> MemoryManager)
        (mm : MemoryManager) (ptr index : Z) :
  m_bypassSlabAlloc mm = true ->
  exists mm',
    freeSmallIndex P Q N freeBigSize mm ptr index = freeBigSize mm' ptr /\
    currentSmallAllocs mm' !! Z.to_nat index
    = (fun count => count - 1) <$> currentSmallAllocs mm !! Z.to_nat index /\
    (forall j, j <> Z.to_nat index ->
       currentSmallAllocs mm' !! j = currentSmallAllocs mm !! j) /\
    m_freelists mm' = m_freelists mm /\
    m_memory mm' = m_memory mm /\
    m_stats mm' = m_stats mm /\
    m_bigs mm' = m_bigs mm.
Proof.
  intros Hmode. unfold freeSmallIndex. rewrite Hmode.
  eexists. split; [reflexivity|]. cbn.
  split; [apply list_lookup_alter_eq|].
  split; [|done].
  intros j Hj. apply list_lookup_alter_ne. congruence.
Qed.

Lemma freeSmallIndex_bypass_witness :
  exists mm',
    freeSmallIndex 2 4 232 Design.freeBigSize Sample.bypassed 4096 1
    = Design.freeBigSize mm' 4096 /\
    currentSmallAllocs mm' !! Z.to_nat 1
    = (fun count => count - 1)
        <$> currentSmallAllocs Sample.bypassed !! Z.to_nat 1 /\
    (forall j, j <> Z.to_nat 1 ->
       currentSmallAllocs mm' !! j = currentSmallAllocs Sample.bypassed !! j) /\
    m_freelists mm' = m_freelists Sample.bypassed /\
    m_memory mm' = m_memory Sample.bypassed /\
    m_stats mm' = m_stats Sample.bypassed /\
    m_bigs mm' = m_bigs Sample.bypassed.
Proof.
  apply (freeSmallIndex_bypass 2 4 232 Design.freeBigSize Sample.bypassed).
  reflexivity.
Defined.

(** C10, as stated, fails: with slab recycling bypassed and the
    large-object free path of the design, the allocation of a block of
    class 1 raises the usage from 900 to 932 and the free of that block
    brings it back to 900. *)
Lemma bypass_pair_restores_usage :
  m_bypassSlabAlloc Sample.bypassed = true /\
  mmUsage (m_stats Sample.bypassed) = 900 /\
  let '(p, mm') :=
    mallocSmallIndex 2 4 232 false Design.requestEagerGC
                     Design.mallocSmallSizeSlow Sample.bypassed 1 in
  mmUsage (m_stats mm') = 932 /\
  mmUsage (m_stats (freeSmallIndex 2 4 232 Design.freeBigSize mm' p 1)) = 900.
Proof. vm_compute. repeat split. Qed.

(** ** Budget *)




(** The sum of the usage and the size is a sum of 64-bit words: with 900
    bytes in use and a limit of 1000, a request for [2^63 - 1] bytes wraps
    below the limit and is not reported, while one for 150 bytes is. *)
Example preAllocOOM_wraps :
  let check :=
    preAllocOOM Design.usage (Design.refreshStatsImpl true)
                Design.refreshStatsHelperExceeded Sample.fresh in
  (check 150).1 = true /\ (check (2 ^ 63 - 1)).1 = false.
Proof. vm_compute. done. Qed.

(** ** Suppression scopes *)

Lemma SuppressOOM_ctor_disables mm :
  m_couldOOM (SuppressOOM.ctor mm).2 = false.
Proof. reflexivity. Qed.

Lemma SuppressOOM_dtor_restores guard mm :
  m_couldOOM (SuppressOOM.dtor guard mm)
  = SuppressOOM.m_savedCouldOOM guard.
Proof. reflexivity. Qed.

Lemma SuppressOOM_scope_restores body mm :
  m_couldOOM (SuppressOOM.scope body mm) = m_couldOOM mm.
Proof. reflexivity. Qed.

(** C5: a suppression scope disables the checks on entry and puts back on
    exit the state it found on entry.  For two nested scopes, with any code
    [before], [inner] and [after] run in them (the code before the inner
    scope leaving the switch alone): the exit of the inner scope leaves the
    checks disabled, and the exit of the outer scope restores the state
    from before the outer scope, enabled or disabled.  A scope with nothing
    in it gives back the manager unchanged. *)
Theorem SuppressOOM_nesting
        (before inner after : MemoryManager -> MemoryManager)
        (mm : MemoryManager) :
  (forall m, m_couldOOM (before m) = m_couldOOM m) ->
  let '(outerGuard, mm1) := SuppressOOM.ctor mm in
  let '(innerGuard, mm2) := SuppressOOM.ctor (before mm1) in
  let mm3 := SuppressOOM.dtor innerGuard (inner mm2) in
  let mm4 := SuppressOOM.dtor outerGuard (after mm3) in
  m_couldOOM mm1 = false /\
  m_couldOOM mm2 = false /\
  m_couldOOM mm3 = false /\
  m_couldOOM mm4 = m_couldOOM mm /\
  SuppressOOM.dtor outerGuard mm1 = mm.
Proof.
  intros Hbefore. cbn.
  rewrite Hbefore. cbn. repeat split. destruct mm; reflexivity.
Qed.

Lemma SuppressOOM_nesting_witness :
  let '(outerGuard, mm1) := SuppressOOM.ctor Sample.fresh in
  let '(innerGuard, mm2) := SuppressOOM.ctor (set_m_exiting true mm1) in
  let mm3 := SuppressOOM.dtor innerGuard (set_m_couldOOM true mm2) in
  let mm4 := SuppressOOM.dtor outerGuard (set_m_couldOOM false mm3) in
  m_couldOOM mm1 = false /\
  m_couldOOM mm2 = false /\
  m_couldOOM mm3 = false /\
  m_couldOOM mm4 = m_couldOOM Sample.fresh /\
  SuppressOOM.dtor outerGuard mm1 = Sample.fresh.
Proof.
  apply (SuppressOOM_nesting (set_m_exiting true) (set_m_couldOOM true)
           (set_m_couldOOM false) Sample.fresh).
  intros m. reflexivity.
Defined.

(** ** Measurement window *)

(** C6: [startStatsInterval] returns the negation of the active flag as
    it was at the call: true when no interval is active, false on a second
    start before a stop; the flag is a single bit, so that one stop after
    two starts ends the interval and the next start returns true again.
    The start records as peak interval usage the usage of the snapshot
    clamped at zero.  [stopStatsInterval] returns the flag, clears it and
    resets peak interval usage and peak interval capacity to zero. *)
Theorem statsInterval_flag
        (usage capacity : MemoryUsageStats -> Z)
        (refreshStatsImpl :
           MemoryManager -> MemoryUsageStats -> MemoryManager * MemoryUsageStats)
        (mm : MemoryManager) :
  let start := startStatsInterval usage capacity refreshStatsImpl in
  (start mm).1 = negb (m_statsIntervalActive mm) /\
  m_statsIntervalActive (start mm).2 = true /\
  (start (start mm).2).1 = false /\
  (start (stopStatsInterval (start (start mm).2).2).2).1 = true /\
  peakIntervalUsage (m_stats (start mm).2)
  = Z.max 0 (usage (getStatsCopy refreshStatsImpl mm).2) /\
  0 <= peakIntervalUsage (m_stats (start mm).2) /\
  (stopStatsInterval mm).1 = m_statsIntervalActive mm /\
  m_statsIntervalActive (stopStatsInterval mm).2 = false /\
  peakIntervalUsage (m_stats (stopStatsInterval mm).2) = 0 /\
  peakIntervalCap (m_stats (stopStatsInterval mm).2) = 0.
Proof.
  assert (forall m,
    (startStatsInterval usage capacity refreshStatsImpl m).1
    = negb (m_statsIntervalActive m) /\
    m_statsIntervalActive
      (startStatsInterval usage capacity refreshStatsImpl m).2 = true /\
    peakIntervalUsage
      (m_stats (startStatsInterval usage capacity refreshStatsImpl m).2)
    = Z.max 0 (usage (getStatsCopy refreshStatsImpl m).2)) as Hstart.
  { intros m. unfold startStatsInterval, getStatsCopy.
    destruct (refreshStatsImpl m (m_stats m)) as [m1 stats1]. done. }
  cbn zeta.
  destruct (Hstart mm) as (Hret & Hactive & Hpeak).
  destruct (Hstart (startStatsInterval usage capacity refreshStatsImpl mm).2)
    as (Hret2 & _).
  destruct (Hstart
    (stopStatsInterval
       (startStatsInterval usage capacity refreshStatsImpl
          (startStatsInterval usage capacity refreshStatsImpl mm).2).2).2)
    as (Hret3 & _).
  rewrite Hret, Hret2, Hret3, Hactive, Hpeak.
  repeat split; try done. lia.
Qed.

(** ** Free lists *)

(** C8: [likelyPop] and [unlikelyPop] agree: on the same free list and
    memory both return the head, and both leave the list with its head
    advanced to the link stored in the popped node, or as it was when the
    list is empty. *)
Theorem likelyPop_unlikelyPop (fl : FreeList.t) (mem : gmap Z Z) :
  FreeList.likelyPop fl mem = FreeList.unlikelyPop fl mem /\
  (FreeList.likelyPop fl mem).1 = FreeList.head fl /\
  (FreeList.likelyPop fl mem).2
  = (if FreeList.head fl =? 0 then fl
     else FreeList.mk (FreeNode.next (FreeList.head fl) mem)).
Proof.
  unfold FreeList.likelyPop, FreeList.unlikelyPop.
  destruct (FreeList.head fl =? 0); done.
Qed.

Lemma likelyPop_spec : pop_spec FreeList.likelyPop.
Proof.
  intros fl mem. unfold FreeList.likelyPop.
  destruct (FreeList.head fl =? 0); done.
Qed.

Lemma unlikelyPop_spec : pop_spec FreeList.unlikelyPop.
Proof.
  intros fl mem. unfold FreeList.unlikelyPop.
  destruct (FreeList.head fl =? 0); done.
Qed.

(** A pop right after a push returns the pushed block and the list as it
    was before the push. *)
Lemma pop_push pop val fl mem :
  pop_spec pop -> val <> 0 ->
  pop (FreeList.push val fl mem).1 (FreeList.push val fl mem).2 = (val, fl).
Proof.
  intros Hpop Hval. rewrite Hpop.
  unfold FreeList.push, FreeNode.UninitFrom, FreeNode.next. cbn.
  destruct (Z.eqb_spec val 0); [done|].
  rewrite lookup_insert_eq. destruct fl; done.
Qed.

(** A push leaves the links of the other nodes alone. *)
Lemma next_push val fl mem node :
  node <> val ->
  FreeNode.next node (FreeList.push val fl mem).2 = FreeNode.next node mem.
Proof.
  intros Hne. unfold FreeList.push, FreeNode.UninitFrom, FreeNode.next. cbn.
  rewrite lookup_insert_ne by done. done.
Qed.

Lemma lifo_with pop a b mem :
  pop_spec pop -> a <> 0 -> b <> 0 -> a <> b ->
  let empty := FreeList.mk 0 in
  let '(fl1, mem1) := FreeList.push a empty mem in
  let '(fl2, mem2) := FreeList.push b fl1 mem1 in
  let '(first, fl3) := pop fl2 mem2 in
  let '(second, fl4) := pop fl3 mem2 in
  first = b /\ second = a /\ fl4 = empty.
Proof.
  intros Hpop Ha Hb Hab. cbn zeta.
  pose proof (pop_push pop a (FreeList.mk 0) mem Hpop Ha) as Hpa.
  pose proof (next_push b (FreeList.push a (FreeList.mk 0) mem).1
                (FreeList.push a (FreeList.mk 0) mem).2 a Hab) as Hnext.
  destruct (FreeList.push a (FreeList.mk 0) mem) as [fl1 mem1].
  cbn [fst snd] in Hpa, Hnext.
  pose proof (pop_push pop b fl1 mem1 Hpop Hb) as Hpb.
  destruct (FreeList.push b fl1 mem1) as [fl2 mem2].
  cbn [fst snd] in Hpb, Hnext. rewrite Hpb.
  rewrite Hpop in Hpa |- *.
  injection Hpa as Hhead Hrest. rewrite Hhead in Hrest |- *.
  rewrite Hnext, Hrest. done.
Qed.

(** C7: the free list is last in, first out.  On a list that starts
    empty, after the push of a block [a] and then of another block [b],
    the first pop returns [b], the second returns [a], and the list is
    empty again; with [likelyPop] as with [unlikelyPop]. *)
Theorem freelist_lifo (a b : Z) (mem : gmap Z Z) :
  a <> 0 -> b <> 0 -> a <> b ->
  let empty := FreeList.mk 0 in
  let '(fl1, mem1) := FreeList.push a empty mem in
  let '(fl2, mem2) := FreeList.push b fl1 mem1 in
  (let '(first, fl3) := FreeList.likelyPop fl2 mem2 in
   let '(second, fl4) := FreeList.likelyPop fl3 mem2 in
   first = b /\ second = a /\ fl4 = empty) /\
  (let '(first, fl3) := FreeList.unlikelyPop fl2 mem2 in
   let '(second, fl4) := FreeList.unlikelyPop fl3 mem2 in
   first = b /\ second = a /\ fl4 = empty).
Proof.
  intros Ha Hb Hab. cbn zeta.
  pose proof (lifo_with FreeList.likelyPop a b mem likelyPop_spec Ha Hb Hab)
    as Hlikely.
  pose proof (lifo_with FreeList.unlikelyPop a b mem unlikelyPop_spec
                Ha Hb Hab) as Hunlikely.
  cbn zeta in Hlikely, Hunlikely.
  destruct (FreeList.push a (FreeList.mk 0) mem) as [fl1 mem1].
  destruct (FreeList.push b fl1 mem1) as [fl2 mem2].
  split; assumption.
Qed.

Lemma freelist_lifo_witness :
  let empty := FreeList.mk 0 in
  let '(fl1, mem1) := FreeList.push 4096 empty ∅ in
  let '(fl2, mem2) := FreeList.push 4128 fl1 mem1 in
  (let '(first, fl3) := FreeList.likelyPop fl2 mem2 in
   let '(second, fl4) := FreeList.likelyPop fl3 mem2 in
   first = 4128 /\ second = 4096 /\ fl4 = empty) /\
  (let '(first, fl3) := FreeList.unlikelyPop fl2 mem2 in
   let '(second, fl4) := FreeList.unlikelyPop fl3 mem2 in
   first = 4128 /\ second = 4096 /\ fl4 = empty).
Proof.
  apply (freelist_lifo 4096 4128 ∅); lia.
Defined.

(** ** Thread-local queries *)

(** The queries never dereference a null [tl_heap]. *)
Lemma queries_reach tl :
  sweeping tl <> NullDereference /\
  exiting tl <> NullDereference /\
  setExiting tl <> NullDereference.
Proof.
  unfold sweeping, exiting, setExiting.
  destruct (tl_heap tl); cbn; done.
Qed.

(** C9: with no manager active for the calling thread, [sweeping] and
    [exiting] return false and [setExiting] changes nothing; with or
    without a manager, none of the three dereferences a null [tl_heap]. *)
Theorem queries_without_manager (tl : ThreadLocals) :
  tl_heap tl = None ->
  sweeping tl = Reached false /\
  exiting tl = Reached false /\
  setExiting tl = Reached tl /\
  (forall tl', sweeping tl' <> NullDereference /\
               exiting tl' <> NullDereference /\
               setExiting tl' <> NullDereference).
Proof.
  intros Hnone. unfold sweeping, exiting, setExiting. rewrite Hnone. cbn.
  repeat split; apply queries_reach.
Qed.

Lemma queries_without_manager_witness :
  sweeping (mkTL None true) = Reached false /\
  exiting (mkTL None true) = Reached false /\
  setExiting (mkTL None true) = Reached (mkTL None true) /\
  (forall tl', sweeping tl' <> NullDereference /\
               exiting tl' <> NullDereference /\
               setExiting tl' <> NullDereference).
Proof.
  apply (queries_without_manager (mkTL None true)). reflexivity.
Defined.

(** * More of the engine *)

Lemma sample_consistent : consistent 2 4 232 4096.
Proof.
  unfold consistent. split; [lia|]. split; [lia|]. split; [lia|]. split.
  - vm_compute. reflexivity.
  - apply elem_of_kSizeIndex2Size. exists 27. split; [lia | reflexivity].
Qed.

Lemma classBytes_pos P Q i :
  0 <= P -> 0 <= Q -> 0 <= i -> 0 < classBytes P Q i.
Proof.
  intros HP HQ Hi.
  pose proof (classBytes_strict P Q HP HQ (-1) i ltac:(lia)) as Hlt.
  rewrite (classBytes_denormal P Q HP HQ (-1)) in Hlt
    by (pose proof (pow2_pos P HP); lia).
  lia.
Qed.

(** The class of a size, by table or by computation, brackets the size
    between two consecutive class sizes; size 1, which only the table
    serves, included. *)
Lemma size2Index_bracket P Q N L s :
  consistent P Q N L ->
  1 <= s <= kMaxSizeClass P Q N ->
  0 <= size2Index P Q N L s < N /\
  classBytes P Q (size2Index P Q N L s - 1) < s
    <= classBytes P Q (size2Index P Q N L s).
Proof.
  intros (HP & HQ & HPQ & Hfit & HL) Hs.
  pose proof (classes_nonempty P Q N L HL) as HN.
  destruct (Z.eq_dec s 1) as [->|Hne].
  - assert (1 <= L) as HL1.
    { apply elem_of_kSizeIndex2Size in HL as (j & Hj & ->).
      pose proof (classBytes_pos P Q j HP HQ ltac:(lia)). lia. }
    assert (size2Index P Q N L 1 = 0) as ->.
    { unfold size2Index. destruct (Z.leb_spec 1 L); [|lia].
      apply (lookupSmallSize2Index_ceiling P Q N L HP HQ HL); try lia.
      rewrite !classBytes_denormal by (pose proof (pow2_pos P HP); lia).
      pose proof (pow2_pos Q HQ). lia. }
    rewrite !classBytes_denormal by (pose proof (pow2_pos P HP); lia).
    pose proof (pow2_pos Q HQ). lia.
  - rewrite (size2Index_computeSize2Index P Q N L) by (done || lia).
    pose proof (computeSize2Index_range P Q N L HP HQ HPQ Hfit HL s
                  ltac:(lia)) as Hi.
    rewrite kMaxSizeClass_classBytes in Hs, Hfit by done.
    destruct (computeSize2Index_ceiling P Q HP HQ HPQ s ltac:(lia))
      as (_ & Hlo & Hhi).
    done.
Qed.

(** X1: [size2Index] is monotone: a larger request never gets a smaller
    class. *)
Theorem size2Index_monotone (P Q N L s s' : Z) :
  consistent P Q N L ->
  1 <= s -> s <= s' -> s' <= kMaxSizeClass P Q N ->
  size2Index P Q N L s <= size2Index P Q N L s'.
Proof.
  intros Hc Hs Hss Hs'. pose proof Hc as (HP & HQ & _).
  destruct (size2Index_bracket P Q N L s Hc ltac:(lia)) as (Hi & Hlo & Hhi).
  destruct (size2Index_bracket P Q N L s' Hc ltac:(lia))
    as (Hi' & Hlo' & Hhi').
  enough (size2Index P Q N L s - 1 < size2Index P Q N L s') by lia.
  apply (classBytes_lt_inv P Q HP HQ); lia.
Qed.

Lemma size2Index_monotone_witness :
  size2Index 2 4 232 4096 24 <= size2Index 2 4 232 4096 5000.
Proof.
  apply (size2Index_monotone 2 4 232 4096 24 5000);
    [exact sample_consistent | lia | lia |].
  vm_compute. discriminate.
Defined.

Lemma size2Index_classBytes P Q N L index :
  consistent P Q N L ->
  0 <= index < N ->
  size2Index P Q N L (classBytes P Q index) = index.
Proof.
  intros Hc Hindex. pose proof Hc as (HP & HQ & HPQ & Hfit & HL).
  pose proof (classBytes_pos P Q index HP HQ ltac:(lia)) as Hpos.
  assert (classBytes P Q index <= kMaxSizeClass P Q N) as Hmax.
  { rewrite kMaxSizeClass_classBytes by lia.
    apply classBytes_mono; lia. }
  destruct (size2Index_bracket P Q N L (classBytes P Q index) Hc
              ltac:(lia)) as (Hi & Hlo & Hhi).
  set (c := size2Index P Q N L (classBytes P Q index)) in *.
  apply (classBytes_lt_inv P Q HP HQ) in Hlo; [|lia..].
  destruct (Z_lt_le_dec c index) as [Hlt|Hge]; [|lia].
  pose proof (classBytes_strict P Q HP HQ c index ltac:(lia)). lia.
Qed.

(** X2: classifying the size of a class gives back the class:
    [size2Index (sizeIndex2Size index) = index] for every class index. *)
Theorem size2Index_sizeIndex2Size (P Q N L index : Z) :
  consistent P Q N L ->
  0 <= index < N ->
  size2Index P Q N L (sizeIndex2Size P Q N index) = index.
Proof.
  intros Hc Hindex. destruct Hc as (HP & HQ & HPQ & Hfit & HL).
  rewrite sizeIndex2Size_classBytes by done.
  apply size2Index_classBytes; [repeat split; done | done].
Qed.

Lemma size2Index_sizeIndex2Size_witness :
  size2Index 2 4 232 4096 (sizeIndex2Size 2 4 232 30) = 30.
Proof.
  apply (size2Index_sizeIndex2Size 2 4 232 4096 30);
    [exact sample_consistent | lia].
Defined.

(** The direct rounding, in terms of the class found. *)
Lemma sizeClass_class P Q N L s :
  consistent P Q N L ->
  1 < s <= kMaxSizeClass P Q N ->
  0 <= size2Index P Q N L s < N /\
  sizeClass P Q s = classBytes P Q (size2Index P Q N L s) /\
  classBytes P Q (size2Index P Q N L s - 1) < s <= sizeClass P Q s.
Proof.
  intros Hc Hs. pose proof Hc as (HP & HQ & HPQ & Hfit & HL).
  destruct (size2Index_bracket P Q N L s Hc ltac:(lia)) as (Hi & Hlo & Hhi).
  pose proof (classes_nonempty P Q N L HL) as HN.
  assert (sizeClass P Q s = classBytes P Q (size2Index P Q N L s)) as Heq.
  { rewrite (size2Index_computeSize2Index P Q N L) in Hi |- * by done.
    rewrite kMaxSizeClass_classBytes in Hs, Hfit by done.
    apply sizeClass_computeSize2Index; [done.. | lia |].
    pose proof (classBytes_mono P Q HP HQ (computeSize2Index P Q s) (N - 1)
                  ltac:(lia)). lia. }
  rewrite Heq. done.
Qed.

Lemma class_in_domain P Q N index :
  0 <= P -> 0 <= Q -> 0 <= index < N ->
  0 < classBytes P Q index <= kMaxSizeClass P Q N.
Proof.
  intros HP HQ Hi. rewrite kMaxSizeClass_classBytes by lia. split.
  - apply classBytes_pos; lia.
  - apply classBytes_mono; lia.
Qed.

(** X3: [sizeClass] rounds up, rounding twice changes nothing, and the
    sizes it leaves as they are are exactly the class sizes. *)
Theorem sizeClass_idempotent (P Q N L s : Z) :
  consistent P Q N L ->
  1 < s <= kMaxSizeClass P Q N ->
  s <= sizeClass P Q s /\
  sizeClass P Q (sizeClass P Q s) = sizeClass P Q s /\
  (sizeClass P Q s = s <-> s ∈ kSizeIndex2Size P Q N).
Proof.
  intros Hc Hs. pose proof Hc as (HP & HQ & HPQ & Hfit & HL).
  destruct (sizeClass_class P Q N L s Hc Hs) as (Hi & Heq & Hlo & Hhi).
  assert (forall j, 0 <= j < N -> 1 < classBytes P Q j ->
            sizeClass P Q (classBytes P Q j) = classBytes P Q j) as Hfix.
  { intros j Hj Hj1.
    pose proof (class_in_domain P Q N j HP HQ Hj) as Hdom.
    destruct (sizeClass_class P Q N L (classBytes P Q j) Hc ltac:(lia))
      as (_ & -> & _).
    rewrite size2Index_classBytes by done. done. }
  split; [done|]. split.
  - rewrite Heq. apply Hfix; [done | lia].
  - split.
    + intros Hs'. apply elem_of_kSizeIndex2Size.
      exists (size2Index P Q N L s). split; [done | congruence].
    + intros (j & Hj & ->)%elem_of_kSizeIndex2Size. apply Hfix; [done | lia].
Qed.

Lemma sizeClass_idempotent_witness :
  5000 <= sizeClass 2 4 5000 /\
  sizeClass 2 4 (sizeClass 2 4 5000) = sizeClass 2 4 5000 /\
  (sizeClass 2 4 5000 = 5000 <-> 5000 ∈ kSizeIndex2Size 2 4 232).
Proof.
  apply (sizeClass_idempotent 2 4 232 4096 5000); [exact sample_consistent|].
  vm_compute. split; [reflexivity | discriminate].
Defined.

(** X4: the bytes a request wastes in its class are fewer than a quantum
    for the denormal classes, and fewer than the request divided by the
    number of classes per doubling for the others. *)
Theorem sizeClass_waste (P Q N L s : Z) :
  consistent P Q N L ->
  1 < s <= kMaxSizeClass P Q N ->
  sizeClass P Q s - s < Z.max (2 ^ Q) ((s - 1) / 2 ^ P).
Proof.
  intros Hc Hs. pose proof Hc as (HP & HQ & HPQ & Hfit & HL).
  destruct (sizeClass_class P Q N L s Hc Hs) as (Hi & Heq & _).
  rewrite Heq, (size2Index_computeSize2Index P Q N L) by done.
  assert (s <= 2 ^ 64) as Hs64 by lia.
  destruct (fls64_bounds (s - 1) ltac:(lia)) as [Hn63 Ht].
  pose proof (pow2_pos P HP) as HB. pose proof (pow2_pos Q HQ) as HU.
  destruct (Z_lt_le_dec (fls64 (s - 1)) (P + Q)) as [Hden|Hnor].
  - rewrite computeSize2Index_denormal by lia.
    assert (0 <= (s - 1) / 2 ^ Q) by (apply Z.div_pos; lia).
    assert ((s - 1) / 2 ^ Q < 2 ^ P).
    { apply Z.div_lt_upper_bound; [lia|].
      rewrite <- pow2_split by lia.
      pose proof (pow2_le (fls64 (s - 1) + 1) (Q + P) ltac:(lia)). lia. }
    rewrite classBytes_denormal by lia.
    pose proof (div_floor_ceil (s - 1) (2 ^ Q) HU). lia.
  - rewrite computeSize2Index_normal by lia.
    set (n := fls64 (s - 1)) in *.
    pose proof (rawMantissa_bounds P HP (s - 1) n ltac:(lia) Ht) as Hr.
    rewrite classBytes_normal by lia.
    replace (n - (P + Q) + Q) with (n - P) by lia.
    pose proof (pow2_pos (n - P) ltac:(lia)) as Hd.
    pose proof (div_floor_ceil (s - 1) (2 ^ (n - P)) Hd).
    assert (2 ^ (n - P) <= (s - 1) / 2 ^ P).
    { apply Z.div_le_lower_bound; [lia|].
      rewrite <- pow2_split by lia.
      replace (P + (n - P)) with n by lia. lia. }
    lia.
Qed.

Lemma sizeClass_waste_witness :
  sizeClass 2 4 4097 - 4097 < Z.max (2 ^ 4) ((4097 - 1) / 2 ^ 2).
Proof.
  apply (sizeClass_waste 2 4 232 4096 4097); [exact sample_consistent|].
  vm_compute. split; [reflexivity | discriminate].
Defined.

(** X5: the assertions of the engine hold on its domain: the index
    [computeSize2Index] computes is below [kNumSizeClasses], and the size
    [sizeClass] returns is at least [kSmallSizeAlign], a multiple of it,
    and at most [kMaxSizeClass]. *)
Theorem engine_assertions (P Q N L s : Z) :
  consistent P Q N L ->
  1 < s <= kMaxSizeClass P Q N ->
  0 <= computeSize2Index P Q s < N /\
  Z.shiftl 1 Q <= sizeClass P Q s <= kMaxSizeClass P Q N /\
  Z.land (sizeClass P Q s) (Z.shiftl 1 Q - 1) = 0.
Proof.
  intros Hc Hs. pose proof Hc as (HP & HQ & HPQ & Hfit & HL).
  destruct (sizeClass_class P Q N L s Hc Hs) as (Hi & Heq & _).
  pose proof (pow2_pos Q HQ) as HU.
  split.
  { apply (computeSize2Index_range P Q N L); done. }
  rewrite Heq, Z.shiftl_1_l.
  set (i := size2Index P Q N L s) in *.
  destruct (classBytes_quanta P Q HP HQ i ltac:(lia)) as (c & Hc0 & Hcq).
  pose proof (classBytes_pos P Q i HP HQ ltac:(lia)) as Hpos.
  pose proof (class_in_domain P Q N i HP HQ Hi) as Hdom.
  assert (1 <= c) as Hc1.
  { destruct (Z_lt_le_dec c 1); [|done]. assert (c * 2 ^ Q <= 0) by nia. lia. }
  split; [split; [rewrite Hcq; nia | lia]|].
  replace (2 ^ Q - 1) with (Z.ones Q) by (rewrite Z.ones_equiv; lia).
  rewrite Z.land_ones, Hcq by lia. apply Z.mod_mul. lia.
Qed.

Lemma engine_assertions_witness :
  0 <= computeSize2Index 2 4 5000 < 232 /\
  Z.shiftl 1 4 <= sizeClass 2 4 5000 <= kMaxSizeClass 2 4 232 /\
  Z.land (sizeClass 2 4 5000) (Z.shiftl 1 4 - 1) = 0.
Proof.
  apply (engine_assertions 2 4 232 4096 5000); [exact sample_consistent|].
  vm_compute. split; [reflexivity | discriminate].
Defined.

(** X6: the table of class sizes is strictly increasing and every entry
    is a positive multiple of the quantum. *)
Theorem kSizeIndex2Size_increasing (P Q N : Z) :
  0 <= P -> 0 <= Q ->
  (forall i j, 0 <= i -> i < j -> j < N ->
     sizeIndex2Size P Q N i < sizeIndex2Size P Q N j) /\
  (forall i, 0 <= i < N ->
     0 < sizeIndex2Size P Q N i /\ sizeIndex2Size P Q N i mod 2 ^ Q = 0).
Proof.
  intros HP HQ. split.
  - intros i j Hi Hij Hj. rewrite !sizeIndex2Size_classBytes by lia.
    apply classBytes_strict; lia.
  - intros i Hi. rewrite sizeIndex2Size_classBytes by lia. split.
    + apply classBytes_pos; lia.
    + destruct (classBytes_quanta P Q HP HQ i ltac:(lia)) as (c & _ & ->).
      apply Z.mod_mul. pose proof (pow2_pos Q HQ). lia.
Qed.

Lemma kSizeIndex2Size_increasing_witness :
  (forall i j, 0 <= i -> i < j -> j < 232 ->
     sizeIndex2Size 2 4 232 i < sizeIndex2Size 2 4 232 j) /\
  (forall i, 0 <= i < 232 ->
     0 < sizeIndex2Size 2 4 232 i /\ sizeIndex2Size 2 4 232 i mod 2 ^ 4 = 0).
Proof. apply (kSizeIndex2Size_increasing 2 4 232); lia. Defined.

(** X7: from the last denormal class on, the class
    [1 << kLgSizeClassesPerDoubling] indices further up is twice as large:
    there are that many classes per doubling of the size. *)
Theorem classes_per_doubling (P Q N index : Z) :
  0 <= P -> 0 <= Q ->
  2 ^ P - 1 <= index -> index + 2 ^ P < N ->
  sizeIndex2Size P Q N (index + Z.shiftl 1 P)
  = 2 * sizeIndex2Size P Q N index.
Proof.
  intros HP HQ Hlo Hhi. pose proof (pow2_pos P HP) as HB.
  rewrite Z.shiftl_1_l, !sizeIndex2Size_classBytes by lia.
  destruct (Z_lt_le_dec index (2 ^ P)) as [Hden|Hnor].
  - assert (index = 2 ^ P - 1) as -> by lia.
    rewrite (classBytes_denormal P Q HP HQ (2 ^ P - 1)) by lia.
    replace (2 ^ P - 1 + 2 ^ P) with (0 * 2 ^ P + (2 * 2 ^ P - 1)) by lia.
    rewrite classBytes_normal by lia.
    replace (0 + Q) with Q by lia. ring.
  - destruct (normal_form P HP index Hnor) as (e & r & He & Hr & ->).
    replace (e * 2 ^ P + r + 2 ^ P) with ((e + 1) * 2 ^ P + r) by lia.
    rewrite !classBytes_normal by lia.
    replace (e + 1 + Q) with (e + Q + 1) by lia.
    rewrite pow2_succ by lia. ring.
Qed.

Lemma classes_per_doubling_witness :
  sizeIndex2Size 2 4 232 (3 + Z.shiftl 1 2) = 2 * sizeIndex2Size 2 4 232 3.
Proof.
  apply (classes_per_doubling 2 4 232 3); [lia | lia | | ]; simpl; lia.
Defined.

(** X8: the lookup table has one slot per quantum up to
    [kMaxSmallSizeLookup], so that every read [lookupSmallSize2Index]
    makes for a size in [[1, kMaxSmallSizeLookup]] is within the table, and
    what it reads is the index [computeSize2Index] computes. *)
Theorem lookupSmallSize2Index_computed (P Q N L : Z) :
  consistent P Q N L ->
  Z.of_nat (length (kSmallSize2Index P Q N L)) = L / 2 ^ Q /\
  (forall s, 1 <= s <= L ->
     (Z.to_nat (Z.shiftr (to_size_t (s - 1)) Q)
      < length (kSmallSize2Index P Q N L))%nat) /\
  (forall s, 1 < s <= L ->
     lookupSmallSize2Index P Q N L s = computeSize2Index P Q s).
Proof.
  intros (HP & HQ & HPQ & Hfit & HL).
  pose proof (pow2_pos Q HQ) as HU.
  pose proof (classes_nonempty P Q N L HL) as HN.
  pose proof HL as (j & Hj & HLj)%elem_of_kSizeIndex2Size.
  rewrite kMaxSizeClass_classBytes in Hfit by done.
  pose proof (classBytes_mono P Q HP HQ j (N - 1) ltac:(lia)) as HLmax.
  assert (Z.of_nat (length (kSmallSize2Index P Q N L)) = L / 2 ^ Q) as Hlen.
  { unfold kSmallSize2Index. rewrite HLj, lookup_classes_prefix by done.
    replace (j + 1) with (Z.of_nat (Z.to_nat (j + 1))) by lia.
    rewrite length_lookup_prefix by done.
    do 2 f_equal. lia. }
  split; [exact Hlen|]. split.
  - intros s Hs. rewrite to_size_t_small, Z.shiftr_div_pow2 by lia.
    assert (0 <= (s - 1) / 2 ^ Q) by (apply Z.div_pos; lia).
    enough ((s - 1) / 2 ^ Q < L / 2 ^ Q) by lia.
    rewrite HLj in Hs |- *. rewrite (classBytes_div P Q HP HQ j) in Hs by lia.
    apply Z.div_lt_upper_bound; lia.
  - intros s Hs.
    destruct (computeSize2Index_ceiling P Q HP HQ HPQ s ltac:(lia))
      as (H0 & Hceil).
    apply (lookupSmallSize2Index_ceiling P Q N L HP HQ HL); [lia..|done].
Qed.

Lemma lookupSmallSize2Index_computed_witness :
  Z.of_nat (length (kSmallSize2Index 2 4 232 4096)) = 4096 / 2 ^ 4 /\
  (forall s, 1 <= s <= 4096 ->
     (Z.to_nat (Z.shiftr (to_size_t (s - 1)) 4)
      < length (kSmallSize2Index 2 4 232 4096))%nat) /\
  (forall s, 1 < s <= 4096 ->
     lookupSmallSize2Index 2 4 232 4096 s = computeSize2Index 2 4 s).
Proof.
  apply (lookupSmallSize2Index_computed 2 4 232 4096).
  exact sample_consistent.
Defined.

(** * More of the free lists *)

Lemma chain_head mem head blocks :
  chain mem head blocks -> head = hd 0 blocks.
Proof. destruct blocks; cbn; [done | by intros (-> & _)]. Qed.

(** A store into a block that is not on the list leaves the list as it
    is. *)
Lemma chain_frame mem head blocks val link :
  val ∉ blocks -> chain mem head blocks ->
  chain (<[val := link]> mem) head blocks.
Proof.
  revert head. induction blocks as [|block blocks IH]; intros head Hnotin;
    cbn; [done|].
  apply not_elem_of_cons in Hnotin as [Hne Hnotin].
  intros (-> & Hnn & Hrest). repeat split; [done|].
  unfold FreeNode.next in *. rewrite lookup_insert_ne by done. auto.
Qed.

Lemma chain_push mem fl blocks val :
  chain mem (FreeList.head fl) blocks -> val <> 0 -> val ∉ blocks ->
  chain (FreeList.push val fl mem).2
        (FreeList.head (FreeList.push val fl mem).1) (val :: blocks).
Proof.
  intros Hchain Hval Hnotin.
  unfold FreeList.push, FreeNode.UninitFrom. cbn.
  repeat split; [done|].
  unfold FreeNode.next at 1. rewrite lookup_insert_eq. cbn.
  apply chain_frame; done.
Qed.

Lemma chain_pop pop mem fl blocks :
  pop_spec pop -> chain mem (FreeList.head fl) blocks ->
  (pop fl mem).1 = hd 0 blocks /\
  chain mem (FreeList.head (pop fl mem).2) (tl blocks).
Proof.
  intros Hpop Hchain. rewrite Hpop. cbn.
  destruct blocks as [|block blocks]; cbn in *.
  - rewrite Hchain. done.
  - destruct Hchain as (-> & Hnn & Hrest).
    destruct (Z.eqb_spec block 0); done.
Qed.

(** X9: a push of a non-null block that is not on the list puts it in
    front of the blocks the list holds and leaves the links of all other
    nodes as they are. *)
Theorem push_chain (mem : gmap Z Z) (fl : FreeList.t) (blocks : list Z)
        (val : Z) :
  chain mem (FreeList.head fl) blocks -> val <> 0 -> val ∉ blocks ->
  let '(fl', mem') := FreeList.push val fl mem in
  chain mem' (FreeList.head fl') (val :: blocks) /\
  (forall node, node <> val ->
     FreeNode.next node mem' = FreeNode.next node mem).
Proof.
  intros Hchain Hval Hnotin.
  pose proof (chain_push mem fl blocks val Hchain Hval Hnotin) as Hpush.
  pose proof (fun node => next_push val fl mem node) as Hnext.
  destruct (FreeList.push val fl mem) as [fl' mem']. done.
Qed.

Lemma push_chain_witness :
  let '(fl', mem') := FreeList.push 4160 (FreeList.mk 4128) {[4128 := 0]} in
  chain mem' (FreeList.head fl') [4160; 4128] /\
  (forall node, node <> 4160 ->
     FreeNode.next node mem' = FreeNode.next node {[4128 := 0]}).
Proof.
  apply (push_chain {[4128 := 0]} (FreeList.mk 4128) [4128] 4160).
  - vm_compute. repeat split; discriminate.
  - lia.
  - intros Hin. apply list_elem_of_singleton in Hin. lia.
Defined.

(** X10: a pop, likely or unlikely, returns the first block the list
    holds and leaves the list holding the rest; it returns [nullptr]
    exactly when the list holds no block, and then leaves it as it is. *)
Theorem pop_chain (mem : gmap Z Z) (fl : FreeList.t) (blocks : list Z) :
  chain mem (FreeList.head fl) blocks ->
  let '(p, fl') := FreeList.likelyPop fl mem in
  FreeList.unlikelyPop fl mem = (p, fl') /\
  p = hd 0 blocks /\
  chain mem (FreeList.head fl') (tl blocks) /\
  (p = 0 <-> blocks = []) /\
  (p = 0 -> fl' = fl).
Proof.
  intros Hchain.
  pose proof (chain_pop _ mem fl blocks likelyPop_spec Hchain) as [Hp Hrest].
  pose proof (likelyPop_spec fl mem) as Hlikely.
  pose proof (unlikelyPop_spec fl mem) as Hunlikely.
  destruct (FreeList.likelyPop fl mem) as [p fl']. cbn in Hp, Hrest.
  split; [congruence|]. split; [done|]. split; [done|].
  injection Hlikely as Hhead Hfl'. split.
  - subst p. destruct blocks as [|block blocks]; cbn in *; [done|].
    destruct Hchain as (_ & Hnn & _). split; [lia | done].
  - intros ->. rewrite <- Hhead in Hfl'. cbn in Hfl'. done.
Qed.

Lemma pop_chain_witness :
  let '(p, fl') := FreeList.likelyPop (FreeList.mk 4128) {[4128 := 0]} in
  FreeList.unlikelyPop (FreeList.mk 4128) {[4128 := 0]} = (p, fl') /\
  p = hd 0 [4128] /\
  chain {[4128 := 0]} (FreeList.head fl') (tl [4128]) /\
  (p = 0 <-> [4128] = []) /\
  (p = 0 -> fl' = FreeList.mk 4128).
Proof.
  apply (pop_chain {[4128 := 0]} (FreeList.mk 4128) [4128]).
  vm_compute. repeat split; discriminate.
Defined.

Lemma pushAll_chain vals : forall mem fl blocks,
  chain mem (FreeList.head fl) blocks ->
  NoDup vals ->
  (forall val, val ∈ vals -> val <> 0 /\ val ∉ blocks) ->
  chain (pushAll vals fl mem).2 (FreeList.head (pushAll vals fl mem).1)
        (reverse vals ++ blocks).
Proof.
  induction vals as [|val vals IH]; intros mem fl blocks Hchain Hnodup Hvals;
    [done|].
  apply NoDup_cons in Hnodup as [Hfresh Hnodup].
  destruct (Hvals val ltac:(left)) as [Hval Hnotin].
  pose proof (chain_push mem fl blocks val Hchain Hval Hnotin) as Hpush.
  cbn [pushAll]. destruct (FreeList.push val fl mem) as [fl' mem'].
  rewrite reverse_cons, <- app_assoc. cbn [app].
  apply IH; [done | done |].
  intros w Hw. destruct (Hvals w ltac:(by right)) as [Hw0 Hwb].
  split; [done|]. apply not_elem_of_cons. split; [|done].
  intros ->. done.
Qed.

Lemma popN_chain pop (count : nat) : forall mem fl blocks,
  pop_spec pop ->
  chain mem (FreeList.head fl) blocks ->
  (count <= length blocks)%nat ->
  (popN pop count fl mem).1 = take count blocks /\
  chain mem (FreeList.head (popN pop count fl mem).2) (drop count blocks).
Proof.
  induction count as [|count IH]; intros mem fl blocks Hpop Hchain Hlen;
    [by rewrite drop_0|].
  destruct blocks as [|block blocks]; [cbn in Hlen; lia|].
  pose proof (chain_pop pop mem fl (block :: blocks) Hpop Hchain)
    as [Hp Hrest].
  cbn [popN]. destruct (pop fl mem) as [p fl']. cbn in Hp, Hrest.
  specialize (IH mem fl' blocks Hpop Hrest ltac:(cbn in Hlen; lia)).
  destruct (popN pop count fl' mem) as [ps fl'']. cbn in IH |- *.
  destruct IH as [-> Hdrop]. subst p. done.
Qed.

(** X11: the free list is a stack of any depth: after the pushes of
    distinct non-null blocks that are not on the list, the list holds
    them last pushed first in front of what it held, as many pops return
    them in that order, and the list is then the one it was before the
    pushes. *)
Theorem pushAll_popN (mem : gmap Z Z) (fl : FreeList.t)
        (blocks vals : list Z) :
  chain mem (FreeList.head fl) blocks ->
  NoDup vals ->
  (forall val, val ∈ vals -> val <> 0 /\ val ∉ blocks) ->
  let '(fl', mem') := pushAll vals fl mem in
  chain mem' (FreeList.head fl') (reverse vals ++ blocks) /\
  popN FreeList.likelyPop (length vals) fl' mem' = (reverse vals, fl) /\
  popN FreeList.unlikelyPop (length vals) fl' mem' = (reverse vals, fl).
Proof.
  intros Hchain Hnodup Hvals.
  pose proof (pushAll_chain vals mem fl blocks Hchain Hnodup Hvals) as Hall.
  destruct (pushAll vals fl mem) as [fl' mem']. cbn in Hall.
  split; [done|].
  assert (forall pop, pop_spec pop ->
            popN pop (length vals) fl' mem' = (reverse vals, fl)) as Hpops.
  { intros pop Hpop.
    destruct (popN_chain pop (length vals) mem' fl' (reverse vals ++ blocks)
                Hpop Hall) as [Htake Hdrop].
    { rewrite length_app, length_reverse. lia. }
    destruct (popN pop (length vals) fl' mem') as [ps fl'']. cbn in *.
    rewrite <- (length_reverse vals), take_app_length in Htake.
    rewrite <- (length_reverse vals), drop_app_length in Hdrop.
    apply chain_head in Hdrop. apply chain_head in Hchain.
    f_equal; [done|]. destruct fl'', fl. cbn in *. congruence. }
  split; apply Hpops; [apply likelyPop_spec | apply unlikelyPop_spec].
Qed.

Lemma pushAll_popN_witness :
  let '(fl', mem') :=
    pushAll [4160; 4192; 4224] (FreeList.mk 4128) {[4128 := 0]} in
  chain mem' (FreeList.head fl') (reverse [4160; 4192; 4224] ++ [4128]) /\
  popN FreeList.likelyPop (length [4160; 4192; 4224]) fl' mem'
  = (reverse [4160; 4192; 4224], FreeList.mk 4128) /\
  popN FreeList.unlikelyPop (length [4160; 4192; 4224]) fl' mem'
  = (reverse [4160; 4192; 4224], FreeList.mk 4128).
Proof.
  apply (pushAll_popN {[4128 := 0]} (FreeList.mk 4128) [4128]
           [4160; 4192; 4224]).
  - vm_compute. repeat split; discriminate.
  - apply NoDup_ListNoDup.
    repeat (constructor; [cbn; intuition discriminate|]). constructor.
  - intros val Hval. rewrite list_elem_of_singleton.
    repeat (apply elem_of_cons in Hval as [->|Hval]; [lia|]).
    by apply elem_of_nil in Hval.
Defined.

(** X12: a block pushed twice in a row links to itself: every later pop
    returns that block and the list never empties, whatever it held
    before. *)
Theorem double_push_cycle (mem : gmap Z Z) (fl : FreeList.t) (val : Z)
        (count : nat) :
  val <> 0 ->
  let '(fl1, mem1) := FreeList.push val fl mem in
  let '(fl2, mem2) := FreeList.push val fl1 mem1 in
  popN FreeList.likelyPop count fl2 mem2 = (replicate count val, fl2) /\
  popN FreeList.unlikelyPop count fl2 mem2 = (replicate count val, fl2).
Proof.
  intros Hval. unfold FreeList.push, FreeNode.UninitFrom. cbn.
  assert (forall pop, pop_spec pop ->
            popN pop count (FreeList.mk val)
                 (<[val:=val]> (<[val:=FreeList.head fl]> mem))
            = (replicate count val, FreeList.mk val)) as Hpops.
  { intros pop Hpop. induction count as [|count IH]; [done|].
    cbn [popN]. rewrite Hpop. cbn.
    destruct (Z.eqb_spec val 0); [done|].
    unfold FreeNode.next. rewrite lookup_insert_eq. cbn.
    rewrite IH. done. }
  split; apply Hpops; [apply likelyPop_spec | apply unlikelyPop_spec].
Qed.

Lemma double_push_cycle_witness :
  let '(fl1, mem1) := FreeList.push 4160 (FreeList.mk 4128) {[4128 := 0]} in
  let '(fl2, mem2) := FreeList.push 4160 fl1 mem1 in
  popN FreeList.likelyPop 5 fl2 mem2 = (replicate 5 4160, fl2) /\
  popN FreeList.unlikelyPop 5 fl2 mem2 = (replicate 5 4160, fl2).
Proof.
  apply (double_push_cycle {[4128 := 0]} (FreeList.mk 4128) 4160 5). lia.
Defined.

(** * More of the small-object path *)

Lemma to_ssize_t_sub_add u b :
  - 2 ^ 63 <= u < 2 ^ 63 -> to_ssize_t (to_ssize_t (u - b) + b) = u.
Proof.
  intros Hu. replace (u - b) with (u + - b) by lia.
  replace (to_ssize_t (u + - b) + b) with (to_ssize_t (u + - b) - - b) by lia.
  apply to_ssize_t_add_sub. done.
Qed.

Lemma freelist_at_lookup mm index fl :
  m_freelists mm !! Z.to_nat index = Some fl -> freelist_at mm index = fl.
Proof. unfold freelist_at. by intros ->. Qed.

(** What a free does with slab recycling in use. *)
Lemma freeSmallIndex_slab P Q N freeBigSize mm ptr index :
  m_bypassSlabAlloc mm = false ->
  freeSmallIndex P Q N freeBigSize mm ptr index
  = set_m_stats
      (set_mmUsage
         (to_ssize_t (mmUsage (m_stats mm) - sizeIndex2Size P Q N index))
         (m_stats mm))
      (set_m_memory
         (<[ptr := FreeList.head (freelist_at mm index)]> (m_memory mm))
         (set_m_freelists
            (<[Z.to_nat index := FreeList.mk ptr]> (m_freelists mm)) mm)).
Proof. intros Hmode. unfold freeSmallIndex. rewrite Hmode. reflexivity. Qed.

(** What an allocation does when the free list of the class holds a
    block. *)
Lemma mallocSmallIndex_hit P Q N debug requestEagerGC mallocSmallSizeSlow
      mm index :
  (debug = true -> forall m, requestEagerGC m = m) ->
  FreeList.head (freelist_at mm index) <> 0 ->
  mallocSmallIndex P Q N debug requestEagerGC mallocSmallSizeSlow mm index
  = (FreeList.head (freelist_at mm index),
     set_m_freelists
       (<[Z.to_nat index :=
            FreeList.mk (FreeNode.next (FreeList.head (freelist_at mm index))
                                       (m_memory mm))]>
          (m_freelists mm))
       (set_m_stats
          (set_mmUsage
             (to_ssize_t (mmUsage (m_stats mm) + sizeIndex2Size P Q N index))
             (m_stats mm))
          mm)).
Proof.
  intros Hgc Hhead. unfold mallocSmallIndex.
  replace (if debug then requestEagerGC mm else mm) with mm
    by (destruct debug; [by rewrite Hgc | done]).
  rewrite likelyPop_spec.
  change (freelist_at (set_m_stats ?s mm) index) with (freelist_at mm index).
  destruct (Z.eqb_spec (FreeList.head (freelist_at mm index)) 0); [done|].
  reflexivity.
Qed.

(** X13: with slab recycling in use, the allocation that follows the free
    of a block at the same class returns that block, without a call of the
    slow path, and the manager is as it was before the free, but for the
    link the free stored in the block. *)
Theorem free_malloc_reuse (P Q N : Z) (debug : bool)
        (requestEagerGC : MemoryManager -> MemoryManager)
        (mallocSmallSizeSlow : MemoryManager -> Z -> Z -> Z * MemoryManager)
        (freeBigSize : MemoryManager -> Z -> MemoryManager)
        (mm : MemoryManager) (ptr index : Z) :
  (debug = true -> forall m, requestEagerGC m = m) ->
  m_bypassSlabAlloc mm = false ->
  ptr <> 0 ->
  (Z.to_nat index < length (m_freelists mm))%nat ->
  - 2 ^ 63 <= mmUsage (m_stats mm) < 2 ^ 63 ->
  mallocSmallIndex P Q N debug requestEagerGC mallocSmallSizeSlow
    (freeSmallIndex P Q N freeBigSize mm ptr index) index
  = (ptr,
     set_m_memory
       (<[ptr := FreeList.head (freelist_at mm index)]> (m_memory mm)) mm).
Proof.
  intros Hgc Hmode Hptr Hindex Hrange.
  rewrite freeSmallIndex_slab by done.
  destruct (lookup_lt_is_Some_2 _ _ Hindex) as [fl Hfl].
  rewrite (freelist_at_lookup mm index fl Hfl).
  set (bytes := sizeIndex2Size P Q N index).
  set (mm' := set_m_stats _ _).
  assert (freelist_at mm' index = FreeList.mk ptr) as Hat.
  { apply freelist_at_lookup. subst mm'. cbn.
    apply list_lookup_insert_eq. done. }
  rewrite mallocSmallIndex_hit by (rewrite ?Hat; done).
  rewrite Hat. subst mm'. cbn. fold bytes.
  unfold FreeNode.next. rewrite lookup_insert_eq. cbn.
  rewrite to_ssize_t_sub_add by done.
  rewrite list_insert_insert_eq.
  rewrite (list_insert_id (m_freelists mm) (Z.to_nat index)
             (FreeList.mk (FreeList.head fl)))
    by (rewrite Hfl; destruct fl; done).
  destruct mm as [? ? [? ? ? ? ? ? ?] ? ? ? ? ? ? ? ? ? ?]. reflexivity.
Qed.

Lemma free_malloc_reuse_witness :
  mallocSmallIndex 2 4 232 true Design.requestEagerGC
    Design.mallocSmallSizeSlow
    (freeSmallIndex 2 4 232 Design.freeBigSize Sample.fresh 8192 1) 1
  = (8192,
     set_m_memory
       (<[8192 := FreeList.head (freelist_at Sample.fresh 1)]>
          (m_memory Sample.fresh)) Sample.fresh).
Proof.
  apply (free_malloc_reuse 2 4 232 true Design.requestEagerGC
           Design.mallocSmallSizeSlow Design.freeBigSize Sample.fresh 8192 1).
  - intros _ m. reflexivity.
  - reflexivity.
  - lia.
  - vm_compute. lia.
  - simpl. lia.
Defined.

(** X14: with slab recycling in use, the free of a non-null block that no
    free list holds keeps every free list well formed: the list of its
    class holds the block in front of what it held, the lists of the other
    classes hold what they held. *)
Theorem freeSmallIndex_holds (P Q N : Z)
        (freeBigSize : MemoryManager -> Z -> MemoryManager)
        (mm : MemoryManager) (held : list (list Z)) (blocks : list Z)
        (ptr index : Z) :
  freelists_hold mm held ->
  m_bypassSlabAlloc mm = false ->
  ptr <> 0 ->
  (forall class, class ∈ held -> ptr ∉ class) ->
  held !! Z.to_nat index = Some blocks ->
  freelists_hold (freeSmallIndex P Q N freeBigSize mm ptr index)
                 (<[Z.to_nat index := ptr :: blocks]> held).
Proof.
  intros Hheld Hmode Hptr Hfresh Hblocks.
  rewrite freeSmallIndex_slab by done.
  unfold freelists_hold in *. cbn.
  apply Forall2_same_length_lookup in Hheld as [Hlen Hheld].
  destruct (lookup_lt_is_Some_2 (m_freelists mm) (Z.to_nat index)) as [fl Hfl].
  { rewrite Hlen. eapply lookup_lt_Some. exact Hblocks. }
  rewrite (freelist_at_lookup mm index fl Hfl).
  apply Forall2_same_length_lookup. split.
  { rewrite !length_insert. done. }
  intros i fl' class Hfl' Hclass.
  destruct (decide (i = Z.to_nat index)) as [->|Hne].
  - rewrite list_lookup_insert_eq in Hfl'
      by (eapply lookup_lt_Some; exact Hfl).
    rewrite list_lookup_insert_eq in Hclass
      by (eapply lookup_lt_Some; exact Hblocks).
    injection Hfl' as <-. injection Hclass as <-.
    pose proof (Hheld _ _ _ Hfl Hblocks) as Hchain.
    pose proof (chain_push (m_memory mm) fl blocks ptr Hchain Hptr) as Hpush.
    apply Hpush. apply Hfresh. eapply list_elem_of_lookup_2. exact Hblocks.
  - rewrite list_lookup_insert_ne in Hfl' by done.
    rewrite list_lookup_insert_ne in Hclass by done.
    apply chain_frame.
    + apply Hfresh. eapply list_elem_of_lookup_2. exact Hclass.
    + eapply Hheld; eassumption.
Qed.

Lemma freeSmallIndex_holds_witness :
  freelists_hold
    (freeSmallIndex 2 4 232 Design.freeBigSize Sample.fresh 8192 1)
    (<[Z.to_nat 1 := [8192]]> (replicate 8 [])).
Proof.
  apply (freeSmallIndex_holds 2 4 232 Design.freeBigSize Sample.fresh
           (replicate 8 []) [] 8192 1).
  - unfold freelists_hold. cbn. repeat constructor.
  - reflexivity.
  - lia.
  - intros class Hclass. apply elem_of_replicate in Hclass as [-> _].
    apply not_elem_of_nil.
  - reflexivity.
Defined.

(** X15: when the free list of the class holds a block, the allocation
    returns the first block it holds, does not call the slow path, stores
    nothing in the heap, and every free list stays well formed: the list
    of the class holds the rest, the others hold what they held. *)
Theorem mallocSmallIndex_holds (P Q N : Z) (debug : bool)
        (requestEagerGC : MemoryManager -> MemoryManager)
        (mallocSmallSizeSlow : MemoryManager -> Z -> Z -> Z * MemoryManager)
        (mm : MemoryManager) (held : list (list Z)) (block : Z)
        (blocks : list Z) (index : Z) :
  (debug = true -> forall m, requestEagerGC m = m) ->
  freelists_hold mm held ->
  held !! Z.to_nat index = Some (block :: blocks) ->
  let '(p, mm') :=
    mallocSmallIndex P Q N debug requestEagerGC mallocSmallSizeSlow
                     mm index in
  p = block /\ p <> 0 /\
  m_memory mm' = m_memory mm /\
  freelists_hold mm' (<[Z.to_nat index := blocks]> held).
Proof.
  intros Hgc Hheld Hblocks. unfold freelists_hold in *.
  apply Forall2_same_length_lookup in Hheld as [Hlen Hheld].
  destruct (lookup_lt_is_Some_2 (m_freelists mm) (Z.to_nat index)) as [fl Hfl].
  { rewrite Hlen. eapply lookup_lt_Some. exact Hblocks. }
  pose proof (Hheld _ _ _ Hfl Hblocks) as Hchain.
  cbn in Hchain. destruct Hchain as (Hhead & Hnn & Hrest).
  rewrite mallocSmallIndex_hit
    by (rewrite ?(freelist_at_lookup mm index fl Hfl), ?Hhead; done).
  rewrite (freelist_at_lookup mm index fl Hfl), Hhead.
  split; [done|]. split; [done|]. split; [done|]. cbn.
  apply Forall2_same_length_lookup. split.
  { rewrite !length_insert. done. }
  intros i fl' class Hfl' Hclass.
  destruct (decide (i = Z.to_nat index)) as [->|Hne].
  - rewrite list_lookup_insert_eq in Hfl'
      by (eapply lookup_lt_Some; exact Hfl).
    rewrite list_lookup_insert_eq in Hclass
      by (eapply lookup_lt_Some; exact Hblocks).
    injection Hfl' as <-. injection Hclass as <-. done.
  - rewrite list_lookup_insert_ne in Hfl' by done.
    rewrite list_lookup_insert_ne in Hclass by done.
    eapply Hheld; eassumption.
Qed.

Lemma mallocSmallIndex_holds_witness :
  let '(p, mm') :=
    mallocSmallIndex 2 4 232 true Design.requestEagerGC
      Design.mallocSmallSizeSlow
      (freeSmallIndex 2 4 232 Design.freeBigSize Sample.fresh 8192 1) 1 in
  p = 8192 /\ p <> 0 /\
  m_memory mm'
  = m_memory (freeSmallIndex 2 4 232 Design.freeBigSize Sample.fresh 8192 1)
  /\
  freelists_hold mm'
    (<[Z.to_nat 1 := []]> (<[Z.to_nat 1 := [8192]]> (replicate 8 []))).
Proof.
  apply (mallocSmallIndex_holds 2 4 232 true Design.requestEagerGC
           Design.mallocSmallSizeSlow
           (freeSmallIndex 2 4 232 Design.freeBigSize Sample.fresh 8192 1)
           (<[Z.to_nat 1 := [8192]]> (replicate 8 [])) 8192 [] 1).
  - intros _ m. reflexivity.
  - unfold freelists_hold. vm_compute.
    repeat (constructor; [repeat split; discriminate|]). constructor.
  - reflexivity.
Defined.

Section Charge.

Variables P Q N L : Z.
Variable debug : bool.
Variable requestEagerGC : MemoryManager -> MemoryManager.
Variable mallocSmallSizeSlow : MemoryManager -> Z -> Z -> Z * MemoryManager.

(** X16: a small allocation is charged at the size of its class, not at
    the size asked for: [mallocSmallSize bytes] adds [sizeClass bytes],
    which is at least [bytes], to the usage counter, on the fast and on
    the slow path alike, provided the request for a collection and the
    slow path leave the statistics alone. *)
Theorem mallocSmallSize_charge (mm : MemoryManager) (bytes : Z) :
  consistent P Q N L ->
  (forall m, m_stats (requestEagerGC m) = m_stats m /\
             m_bypassSlabAlloc (requestEagerGC m) = m_bypassSlabAlloc m) ->
  (forall m nbytes index,
     m_stats (mallocSmallSizeSlow m nbytes index).2 = m_stats m /\
     m_bypassSlabAlloc (mallocSmallSizeSlow m nbytes index).2
     = m_bypassSlabAlloc m) ->
  1 < bytes <= kMaxSizeClass P Q N ->
  mmUsage
    (m_stats
       (mallocSmallSize P Q N L debug requestEagerGC mallocSmallSizeSlow
                        mm bytes).2)
  = to_ssize_t (mmUsage (m_stats mm) + sizeClass P Q bytes) /\
  bytes <= sizeClass P Q bytes.
Proof using Type.
  intros Hc Hgc Hslow Hbytes.
  destruct (sizeClass_class P Q N L bytes Hc Hbytes) as (Hi & Heq & _ & Hle).
  split; [|done]. unfold mallocSmallSize.
  destruct (mallocSmallIndex_accounting P Q N debug requestEagerGC
              mallocSmallSizeSlow Hgc Hslow mm (size2Index P Q N L bytes))
    as [-> _].
  rewrite sizeIndex2Size_classBytes, Heq by done. done.
Qed.

End Charge.

Lemma mallocSmallSize_charge_witness :
  mmUsage
    (m_stats
       (mallocSmallSize 2 4 232 4096 true Design.requestEagerGC
                        Design.mallocSmallSizeSlow Sample.fresh 24).2)
  = to_ssize_t (mmUsage (m_stats Sample.fresh) + sizeClass 2 4 24) /\
  24 <= sizeClass 2 4 24.
Proof.
  apply (mallocSmallSize_charge 2 4 232 4096 true Design.requestEagerGC
           Design.mallocSmallSizeSlow Sample.fresh 24).
  - exact sample_consistent.
  - exact design_requestEagerGC_frame.
  - exact design_mallocSmallSizeSlow_frame.
  - vm_compute. split; [reflexivity | discriminate].
Defined.

(** * Dispatch *)

(** X17: when [kMaxSmallSize] is the size of the last small class, the
    size-keyed and the index-keyed entry points choose the same path: a
    size is small exactly when its class index is, [objFree] with a size
    is [objFreeIndex] with the index of its class, and so is [objMalloc]
    for a small size; for a large one the index-keyed allocation asks the
    large path for the size rounded up to its class. *)
Theorem dispatch_agrees (P Q N L kMaxSmallSize kNumSmallSizes : Z)
        (debug : bool)
        (requestEagerGC : MemoryManager -> MemoryManager)
        (mallocSmallSizeSlow : MemoryManager -> Z -> Z -> Z * MemoryManager)
        (freeBigSize : MemoryManager -> Z -> MemoryManager)
        (mallocBigSize : MemoryManager -> Z -> Z * MemoryManager)
        (mm : MemoryManager) (vp size : Z) :
  consistent P Q N L ->
  0 < kNumSmallSizes <= N ->
  kMaxSmallSize = sizeIndex2Size P Q N (kNumSmallSizes - 1) ->
  1 <= size <= kMaxSizeClass P Q N ->
  (size <= kMaxSmallSize <-> size2Index P Q N L size < kNumSmallSizes) /\
  objFree P Q N L kMaxSmallSize freeBigSize mm vp size
  = objFreeIndex P Q N kNumSmallSizes freeBigSize mm vp
      (size2Index P Q N L size) /\
  (size <= kMaxSmallSize ->
   objMalloc P Q N L kMaxSmallSize debug requestEagerGC mallocSmallSizeSlow
             mallocBigSize mm size
   = objMallocIndex P Q N kNumSmallSizes debug requestEagerGC
       mallocSmallSizeSlow mallocBigSize mm (size2Index P Q N L size)) /\
  (kMaxSmallSize < size ->
   objMallocIndex P Q N kNumSmallSizes debug requestEagerGC
     mallocSmallSizeSlow mallocBigSize mm (size2Index P Q N L size)
   = mallocBigSize mm (sizeClass P Q size)).
Proof.
  intros Hc Hsmall -> Hsize. pose proof Hc as (HP & HQ & _).
  rewrite sizeIndex2Size_classBytes by lia.
  destruct (size2Index_bracket P Q N L size Hc Hsize) as (Hi & Hlo & Hhi).
  set (i := size2Index P Q N L size) in *.
  assert (size <= classBytes P Q (kNumSmallSizes - 1)
          <-> i < kNumSmallSizes) as Hiff.
  { split.
    - intros Hle. enough (i - 1 < kNumSmallSizes - 1) by lia.
      apply (classBytes_lt_inv P Q HP HQ); lia.
    - intros Hlt.
      pose proof (classBytes_mono P Q HP HQ i (kNumSmallSizes - 1)
                    ltac:(lia)). lia. }
  split; [exact Hiff|].
  unfold objFree, objFreeIndex, objMalloc, objMallocIndex, freeSmallSize,
    mallocSmallSize. fold i.
  destruct (Z.leb_spec size (classBytes P Q (kNumSmallSizes - 1)))
    as [Hle|Hgt];
    destruct (Z.ltb_spec i kNumSmallSizes) as [Hlt|Hge];
    try (exfalso; lia).
  - repeat split; try done. lia.
  - repeat split; try done; try lia. intros _.
    assert (1 < size) as Hsize1.
    { pose proof (classBytes_pos P Q (kNumSmallSizes - 1) HP HQ ltac:(lia)).
      lia. }
    destruct (sizeClass_class P Q N L size Hc ltac:(lia)) as (_ & -> & _).
    rewrite sizeIndex2Size_classBytes by done. done.
Qed.

Lemma dispatch_agrees_witness :
  (5000 <= 4096 <-> size2Index 2 4 232 4096 5000 < 28) /\
  objFree 2 4 232 4096 4096 Design.freeBigSize Sample.fresh 8192 5000
  = objFreeIndex 2 4 232 28 Design.freeBigSize Sample.fresh 8192
      (size2Index 2 4 232 4096 5000) /\
  (5000 <= 4096 ->
   objMalloc 2 4 232 4096 4096 true Design.requestEagerGC
             Design.mallocSmallSizeSlow
             (fun mm size => (m_front mm, mm))
             Sample.fresh 5000
   = objMallocIndex 2 4 232 28 true Design.requestEagerGC
       Design.mallocSmallSizeSlow
       (fun mm size => (m_front mm, mm))
       Sample.fresh (size2Index 2 4 232 4096 5000)) /\
  (4096 < 5000 ->
   objMallocIndex 2 4 232 28 true Design.requestEagerGC
     Design.mallocSmallSizeSlow
     (fun mm size => (m_front mm, mm))
     Sample.fresh (size2Index 2 4 232 4096 5000)
   = (m_front Sample.fresh, Sample.fresh)).
Proof.
  apply (dispatch_agrees 2 4 232 4096 4096 28 true Design.requestEagerGC
           Design.mallocSmallSizeSlow Design.freeBigSize
           (fun mm size => (m_front mm, mm))
           Sample.fresh 8192 5000).
  - exact sample_consistent.
  - lia.
  - vm_compute. reflexivity.
  - vm_compute. split; discriminate.
Defined.

(** * More of the budget *)

(** X18: inside a suppression scope the budget checks do nothing:
    [preAllocOOM] returns false whatever the size, the usage and the limit,
    neither it nor [forceOOM] runs the exceeded-handling path, and after
    any sequence of such checks the scope gives back the manager it was
    entered with. *)
Theorem suppressed_budget_calls
        (usage : MemoryUsageStats -> Z)
        (refreshStatsImpl :
           MemoryManager -> MemoryUsageStats -> MemoryManager * MemoryUsageStats)
        (refreshStatsHelperExceeded : MemoryManager -> MemoryManager)
        (calls : list budgetCall) (mm : MemoryManager) (size : Z) :
  let inside := (SuppressOOM.ctor mm).2 in
  preAllocOOM usage refreshStatsImpl refreshStatsHelperExceeded inside size
  = (false, inside) /\
  forceOOM refreshStatsHelperExceeded inside = inside /\
  budgetCalls usage refreshStatsImpl refreshStatsHelperExceeded calls inside
  = inside /\
  SuppressOOM.scope
    (budgetCalls usage refreshStatsImpl refreshStatsHelperExceeded calls) mm
  = mm.
Proof.
  cbn zeta.
  assert (forall m, m_couldOOM m = false ->
            budgetCalls usage refreshStatsImpl refreshStatsHelperExceeded
                        calls m = m) as Hcalls.
  { induction calls as [|[sz|] calls IH]; intros m Hm; [done| |];
      cbn; unfold budgetCalls in IH;
      unfold preAllocOOM, forceOOM; rewrite Hm; cbn; auto. }
  split; [done|]. split; [done|]. split.
  - apply Hcalls. reflexivity.
  - unfold SuppressOOM.scope. cbn. rewrite Hcalls by reflexivity.
    destruct mm; reflexivity.
Qed.

(** X19: with checks enabled and a refresh that writes only the copy it
    is handed, a breach reported for one size is reported for every larger
    size for which the sum of the snapshot's usage and the size still fits
    in 64 bits, and what a reported breach does to the manager is what
    [forceOOM] does. *)
Theorem preAllocOOM_monotone
        (usage : MemoryUsageStats -> Z)
        (refreshStatsImpl :
           MemoryManager -> MemoryUsageStats -> MemoryManager * MemoryUsageStats)
        (refreshStatsHelperExceeded : MemoryManager -> MemoryManager)
        (mm : MemoryManager) (size size' : Z) :
  (forall m stats, (refreshStatsImpl m stats).1 = m) ->
  - 2 ^ 63 <= usage (getStatsCopy refreshStatsImpl mm).2 + size ->
  usage (getStatsCopy refreshStatsImpl mm).2 + size' < 2 ^ 63 ->
  (preAllocOOM usage refreshStatsImpl refreshStatsHelperExceeded mm size).1
  = true ->
  size <= size' ->
  preAllocOOM usage refreshStatsImpl refreshStatsHelperExceeded mm size'
  = (true, forceOOM refreshStatsHelperExceeded mm).
Proof.
  intros Hframe Hlow Hhigh Hbreach Hle.
  unfold preAllocOOM, forceOOM, getStatsCopy in *.
  specialize (Hframe mm (m_stats mm)).
  destruct (m_couldOOM mm); [|done].
  destruct (refreshStatsImpl mm (m_stats mm)) as [mm1 stats1].
  cbn in Hframe, Hlow, Hhigh. subst mm1.
  rewrite (to_ssize_t_small (usage stats1 + size)) in Hbreach by lia.
  rewrite (to_ssize_t_small (usage stats1 + size')) by lia.
  destruct (Z.gtb_spec (usage stats1 + size) (m_usageLimit mm)); [|done].
  destruct (Z.gtb_spec (usage stats1 + size') (m_usageLimit mm)); [done|lia].
Qed.

Lemma preAllocOOM_monotone_witness :
  preAllocOOM Design.usage (Design.refreshStatsImpl true)
              Design.refreshStatsHelperExceeded Sample.fresh 200
  = (true, forceOOM Design.refreshStatsHelperExceeded Sample.fresh).
Proof.
  apply (preAllocOOM_monotone Design.usage (Design.refreshStatsImpl true)
           Design.refreshStatsHelperExceeded Sample.fresh 150 200).
  - intros m stats. reflexivity.
  - vm_compute. discriminate.
  - vm_compute. reflexivity.
  - vm_compute. reflexivity.
  - lia.
Defined.

(** * More of the thread-local queries *)

(** X20: with a manager active for the thread, [setExiting] makes
    [exiting] return true, leaves what [sweeping] returns as it is, keeps
    every other member of the manager, and a second [setExiting] changes
    nothing more. *)
Theorem setExiting_exiting (tl : ThreadLocals) (mm : MemoryManager) :
  tl_heap tl = Some mm ->
  exists tl',
    setExiting tl = Reached tl' /\
    tl_heap tl' = Some (set_m_exiting true mm) /\
    exiting tl' = Reached true /\
    sweeping tl' = sweeping tl /\
    setExiting tl' = Reached tl'.
Proof.
  intros Hheap. destruct tl as [heap sw]. cbn in Hheap. subst heap.
  eexists. split; [reflexivity|]. cbn. repeat split.
Qed.

Lemma setExiting_exiting_witness :
  exists tl',
    setExiting (mkTL (Some Sample.fresh) false) = Reached tl' /\
    tl_heap tl' = Some (set_m_exiting true Sample.fresh) /\
    exiting tl' = Reached true /\
    sweeping tl' = sweeping (mkTL (Some Sample.fresh) false) /\
    setExiting tl' = Reached tl'.
Proof.
  apply (setExiting_exiting (mkTL (Some Sample.fresh) false) Sample.fresh).
  reflexivity.
Defined.

(** * The contiguous heap *)

(** X21: in a contiguous heap, the chunk index of an address at or above
    the base is the number of whole chunks between the base and the
    address: the address lies in chunk [k] exactly when
    [chunk_index] is [k], the base itself is in chunk 0, and the index
    never decreases with the address. *)
Theorem chunk_index_spec (ChunkSize : Z) (heap : ContiguousHeap.t)
        (p q k : Z) :
  0 < ChunkSize ->
  ContiguousHeap.m_base heap <= p -> p <= q ->
  q - ContiguousHeap.m_base heap < 2 ^ 64 ->
  (ContiguousHeap.chunk_index ChunkSize heap p = k <->
   ContiguousHeap.m_base heap + k * ChunkSize <= p
   < ContiguousHeap.m_base heap + (k + 1) * ChunkSize) /\
  ContiguousHeap.chunk_index ChunkSize heap (ContiguousHeap.m_base heap) = 0
  /\
  ContiguousHeap.chunk_index ChunkSize heap p
  <= ContiguousHeap.chunk_index ChunkSize heap q.
Proof.
  intros Hchunk Hp Hq Hfit. unfold ContiguousHeap.chunk_index.
  set (base := ContiguousHeap.m_base heap) in *.
  rewrite !to_size_t_small by lia.
  replace (base - base) with 0 by lia. rewrite Z.div_0_l by lia.
  split; [|split; [done | apply Z.div_le_mono; lia]].
  pose proof (div_floor_ceil (p - base) ChunkSize Hchunk) as Hfloor.
  split.
  - intros <-. lia.
  - intros Hk. symmetry. apply Z.div_unique with (r := p - base - k * ChunkSize).
    + left. lia.
    + lia.
Qed.

Lemma chunk_index_spec_witness :
  (ContiguousHeap.chunk_index 2097152 (ContiguousHeap.mk 4194304 8388608)
                              6291460 = 1 <->
   4194304 + 1 * 2097152 <= 6291460 < 4194304 + (1 + 1) * 2097152) /\
  ContiguousHeap.chunk_index 2097152 (ContiguousHeap.mk 4194304 8388608)
                             4194304 = 0 /\
  ContiguousHeap.chunk_index 2097152 (ContiguousHeap.mk 4194304 8388608)
                             6291460
  <= ContiguousHeap.chunk_index 2097152 (ContiguousHeap.mk 4194304 8388608)
                                8000000.
Proof.
  apply (chunk_index_spec 2097152 (ContiguousHeap.mk 4194304 8388608)
           6291460 8000000 1); simpl; lia.
Defined.

(** * Masked allocations *)

Lemma mask_word a s r :
  to_size_t (a - to_size_t (r + to_size_t (a - s))) = to_size_t (s - r).
Proof.
  unfold to_size_t, modulus.
  rewrite Zminus_mod_idemp_r.
  replace (a - (r + (a - s) mod 2 ^ 64)) with (a - r - (a - s) mod 2 ^ 64)
    by lia.
  rewrite Zminus_mod_idemp_r. f_equal. lia.
Qed.

Section Masking.

Variable refreshStats : MaskedManager -> MaskedManager.
Variable body : MaskedManager -> MaskedManager.

(** The refresh of the statistics and the code run in the scope leave the
    two reset counters alone. *)
Hypothesis refreshStats_frame : forall mm,
  m_resetAllocated (refreshStats mm) = m_resetAllocated mm /\
  m_resetDeallocated (refreshStats mm) = m_resetDeallocated mm.
Hypothesis body_frame : forall mm,
  m_resetAllocated (body mm) = m_resetAllocated mm /\
  m_resetDeallocated (body mm) = m_resetDeallocated mm.

(** X22: a [MaskAlloc] scope hides from the accounting whatever the
    external allocator hands out and takes back while it is open: with
    statistics enabled, the allocated and the deallocated counters net of
    their reset counters are, as 64-bit words, the same on exit as on
    entry, however much the code in the scope allocates; with statistics
    disabled the reset counters are not touched. *)
Theorem MaskAlloc_excludes (s_statsEnabled : bool) (mm : MaskedManager) :
  let mm' := MaskAlloc.scope s_statsEnabled refreshStats body mm in
  masked mm' = masked (body (refreshStats mm)) /\
  (s_statsEnabled = true ->
   to_size_t (m_allocated (masked mm') - m_resetAllocated mm')
   = to_size_t (m_allocated (masked mm) - m_resetAllocated mm) /\
   to_size_t (m_deallocated (masked mm') - m_resetDeallocated mm')
   = to_size_t (m_deallocated (masked mm) - m_resetDeallocated mm)) /\
  (s_statsEnabled = false ->
   m_resetAllocated mm' = m_resetAllocated mm /\
   m_resetDeallocated mm' = m_resetDeallocated mm).
Proof using refreshStats_frame body_frame.
  cbn zeta. unfold MaskAlloc.scope, MaskAlloc.ctor, MaskAlloc.dtor.
  destruct (body_frame (refreshStats mm)) as [Hba Hbd].
  destruct (refreshStats_frame mm) as [Hra Hrd].
  destruct s_statsEnabled; cbn.
  - split; [done|]. split; [|done]. intros _.
    rewrite Hba, Hbd, Hra, Hrd. split; apply mask_word.
  - split; [done|]. split; [done|]. intros _. rewrite Hba, Hbd. done.
Qed.

End Masking.

Lemma MaskAlloc_excludes_witness :
  let body := fun mm =>
    mkMasked Sample.drifted (m_resetAllocated mm) (m_resetDeallocated mm) in
  let mm := mkMasked Sample.fresh 0 0 in
  let mm' := MaskAlloc.scope true (fun mm => mm) body mm in
  masked mm' = masked (body mm) /\
  (true = true ->
   to_size_t (m_allocated (masked mm') - m_resetAllocated mm')
   = to_size_t (m_allocated (masked mm) - m_resetAllocated mm) /\
   to_size_t (m_deallocated (masked mm') - m_resetDeallocated mm')
   = to_size_t (m_deallocated (masked mm) - m_resetDeallocated mm)) /\
  (true = false ->
   m_resetAllocated mm' = m_resetAllocated mm /\
   m_resetDeallocated mm' = m_resetDeallocated mm).
Proof.
  apply (MaskAlloc_excludes (fun mm => mm)
           (fun mm => mkMasked Sample.drifted (m_resetAllocated mm)
                               (m_resetDeallocated mm))).
  - intros mm. split; reflexivity.
  - intros mm. split; reflexivity.
Defined.

Section NestedMasking.

Variable refreshStats : MaskedManager -> MaskedManager.
Variables before inner after : MaskedManager -> MaskedManager.

Hypothesis refreshStats_frame : forall mm,
  m_resetAllocated (refreshStats mm) = m_resetAllocated mm.
Hypothesis before_frame : forall mm,
  m_resetAllocated (before mm) = m_resetAllocated mm.
Hypothesis inner_frame : forall mm,
  m_resetAllocated (inner mm) = m_resetAllocated mm.
Hypothesis after_frame : forall mm,
  m_resetAllocated (after mm) = m_resetAllocated mm.

(** X23: [MaskAlloc] scopes do not nest: with statistics enabled, what
    the external allocator hands out while an inner scope is open is taken
    off the allocated counter by the inner scope and again by the outer
    one, so that on exit of the outer scope the counter net of its reset
    counter is, as a 64-bit word, its value on entry less the traffic of
    the inner scope. *)
Theorem MaskAlloc_nested (mm : MaskedManager) :
  let entered := before (refreshStats mm) in
  let left := inner (refreshStats entered) in
  let mm' :=
    MaskAlloc.scope true refreshStats
      (fun m => after (MaskAlloc.scope true refreshStats inner (before m)))
      mm in
  to_size_t (m_allocated (masked mm') - m_resetAllocated mm')
  = to_size_t
      (m_allocated (masked mm) - m_resetAllocated mm
       - (m_allocated (masked left) - m_allocated (masked entered))).
Proof using refreshStats_frame before_frame inner_frame after_frame.
  cbn zeta. unfold MaskAlloc.scope, MaskAlloc.ctor, MaskAlloc.dtor. cbn.
  rewrite after_frame. cbn.
  rewrite inner_frame, refreshStats_frame, before_frame, refreshStats_frame.
  set (a6 := m_allocated (masked (after _))).
  set (a4 := m_allocated (masked (inner _))).
  set (a2 := m_allocated (masked (before _))).
  set (a0 := m_allocated (masked mm)).
  set (r := m_resetAllocated mm).
  unfold to_size_t, modulus.
  rewrite Zminus_mod_idemp_r.
  replace (a6 - ((r + (a4 - a2) mod 2 ^ 64) mod 2 ^ 64
                 + (a6 - a0) mod 2 ^ 64))
    with (a6 - (a6 - a0) mod 2 ^ 64
          - (r + (a4 - a2) mod 2 ^ 64) mod 2 ^ 64) by lia.
  rewrite Zminus_mod_idemp_r.
  replace (a6 - (a6 - a0) mod 2 ^ 64 - (r + (a4 - a2) mod 2 ^ 64))
    with (a6 - r - (a4 - a2) mod 2 ^ 64 - (a6 - a0) mod 2 ^ 64) by lia.
  rewrite Zminus_mod_idemp_r.
  replace (a6 - r - (a4 - a2) mod 2 ^ 64 - (a6 - a0))
    with (a0 - r - (a4 - a2) mod 2 ^ 64) by lia.
  rewrite Zminus_mod_idemp_r. f_equal; lia.
Qed.

End NestedMasking.

Lemma MaskAlloc_nested_witness :
  let refreshStats := fun mm : MaskedManager => mm in
  let before := fun mm : MaskedManager => mm in
  let inner := fun mm =>
    mkMasked Sample.drifted (m_resetAllocated mm) (m_resetDeallocated mm) in
  let after := fun mm : MaskedManager => mm in
  let mm := mkMasked Sample.fresh 0 0 in
  let entered := before (refreshStats mm) in
  let left := inner (refreshStats entered) in
  let mm' :=
    MaskAlloc.scope true refreshStats
      (fun m => after (MaskAlloc.scope true refreshStats inner (before m)))
      mm in
  to_size_t (m_allocated (masked mm') - m_resetAllocated mm')
  = to_size_t
      (m_allocated (masked mm) - m_resetAllocated mm
       - (m_allocated (masked left) - m_allocated (masked entered))).
Proof.
  apply (MaskAlloc_nested (fun mm => mm) (fun mm => mm)
           (fun mm => mkMasked Sample.drifted (m_resetAllocated mm)
                               (m_resetDeallocated mm))
           (fun mm => mm)); intros mm; reflexivity.
Defined.
